(** * bot908: configuration loader and client orchestrator

    A shallow embedding of [src/config.py] and [src/bot.py].

    - [Py] holds the handful of Python built-ins the two files rely on
      ([str.strip], [str.isdigit], [int], [str.lower], [collections.deque],
      the ['.1f'] float format).
    - [Config] is [config.py]: [getenv_any] and [load_config] over the process
      environment, a finite map from names to values.
    - [Client] is [bot.py]: the session record, the [on_ready] handler and
      the startup notification task run by a cooperative event loop, the
      audio-node health check, and the two command-error handlers.
    - [Views] and [Samples] hold what the statements are written with and
      the inputs they are tried on; the [...Facts] modules hold the proofs.

    Strings are [String.string]; a character of a string read from the
    environment stands for the code point of the same number (U+0000 to
    U+00FF).  Text literals of [bot.py] are kept in their UTF-8 encoding;
    they are only ever concatenated and compared. *)

From Stdlib Require Import ZArith NArith QArith Qabs String Ascii List Lia Bool.
From Stdlib Require Import DecimalString.
From stdpp Require Import base option list gmap strings.

Local Open Scope string_scope.
Local Open Scope list_scope.
Local Open Scope nat_scope.

(* ===================================================================== *)
(** ** Python built-ins *)
(* ===================================================================== *)

Module Py.

(** Code point of a character. *)
Definition ord (c : ascii) : N := N_of_ascii c.

(** [c.isspace()]: below U+0100 the whitespace characters are
    U+0009..U+000D, U+001C..U+0020, U+0085 and U+00A0. *)
Definition isspace_char (c : ascii) : bool :=
  let n := ord c in
  ((9 <=? n) && (n <=? 13) || (28 <=? n) && (n <=? 32)
   || (n =? 133) || (n =? 160))%N.

(** Characters of Unicode numeric type Decimal: ['0'..'9']. *)
Definition isdecimal_char (c : ascii) : bool :=
  let n := ord c in ((48 <=? n) && (n <=? 57))%N.

(** [c.isdigit()]: numeric type Decimal or Digit; below U+0100 these are
    ['0'..'9'] and the superscripts U+00B2, U+00B3, U+00B9. *)
Definition isdigit_char (c : ascii) : bool :=
  let n := ord c in
  (isdecimal_char c || (n =? 178) || (n =? 179) || (n =? 185))%N.

Definition is_empty (s : string) : bool :=
  match s with EmptyString => true | String _ _ => false end.

(** Truth value of a [str]: the empty string is falsy. *)
Definition truthy (s : string) : bool := negb (is_empty s).

Fixpoint lstrip (s : string) : string :=
  match s with
  | EmptyString => EmptyString
  | String c s' => if isspace_char c then lstrip s' else s
  end.

Fixpoint rstrip (s : string) : string :=
  match s with
  | EmptyString => EmptyString
  | String c s' =>
      let r := rstrip s' in
      if isspace_char c && is_empty r then EmptyString else String c r
  end.

(** [s.strip()] with no argument. *)
Definition strip (s : string) : string := rstrip (lstrip s).

Fixpoint all_chars (p : ascii -> bool) (s : string) : bool :=
  match s with
  | EmptyString => true
  | String c s' => p c && all_chars p s'
  end.

(** [s.isdigit()]: at least one character and all of them digits. *)
Definition isdigit (s : string) : bool :=
  truthy s && all_chars isdigit_char s.

(** Exceptions that [load_config] can raise. *)
Inductive exn : Type :=
| ValueError (msg : string)
| AttributeError (msg : string).

Definition digit_value (c : ascii) : Z := Z.of_N (ord c) - 48.

Fixpoint int_acc (acc : Z) (s : string) : Z :=
  match s with
  | EmptyString => acc
  | String c s' => int_acc (10 * acc + digit_value c) s'
  end.

(** [str(n)] for an [int]. *)
Definition str_of_int (n : Z) : string := NilEmpty.string_of_int (Z.to_int n).

(** Length of the run of decimal digits a string starts with. *)
Fixpoint leading_decimals (s : string) : N :=
  match s with
  | EmptyString => 0%N
  | String c s' => if isdecimal_char c then N.succ (leading_decimals s') else 0%N
  end.

(** [sys.get_int_max_str_digits()]: the interpreter's default, which the
    program never changes. *)
Definition int_max_str_digits : N := 4300.

(** [int(s)] on a string for which [s.isdigit()] holds (the only way the
    loader calls it).  The conversion first counts the decimal digits the
    string starts with, leading zeros included, and raises [ValueError]
    when they are more than the limit; otherwise it gives the decimal
    value when every character is a decimal digit, and raises
    [ValueError] when one is not (a superscript digit passes [isdigit]
    but is no decimal literal). *)
Definition int (s : string) : exn + Z :=
  let digits := leading_decimals s in
  if (int_max_str_digits <? digits)%N then
    inl (ValueError
           ("Exceeds the limit (" +:+ str_of_int (Z.of_N int_max_str_digits)
            +:+ " digits) for integer string conversion: value has "
            +:+ str_of_int (Z.of_N digits)
            +:+ " digits; use sys.set_int_max_str_digits() to increase the limit"))
  else if truthy s && all_chars isdecimal_char s then inr (int_acc 0 s)
  else inl (ValueError ("invalid literal for int() with base 10: '" +:+ s +:+ "'")).

(** [c.lower()] below U+0100: [A-Z] and U+00C0..U+00DE except U+00D7. *)
Definition lower_char (c : ascii) : ascii :=
  let n := ord c in
  if ((65 <=? n) && (n <=? 90)
      || (192 <=? n) && (n <=? 222) && negb (n =? 215))%N
  then ascii_of_N (n + 32) else c.

Fixpoint lower (s : string) : string :=
  match s with
  | EmptyString => EmptyString
  | String c s' => String (lower_char c) (lower s')
  end.

(** [x in (a, b, ...)] on strings. *)
Definition str_in (x : string) (l : list string) : bool :=
  existsb (String.eqb x) l.

(** [x or d] where [x : str | None]. *)
Definition or_default (x : option string) (d : string) : string :=
  match x with
  | Some s => if truthy s then s else d
  | None => d
  end.

(** Nearest integer to a non-negative rational, ties to even. *)
Definition round_half_even (q : Q) : Z :=
  let n := Qnum q in
  let d := Z.pos (Qden q) in
  let fl := (n / d)%Z in
  match (2 * (n mod d) ?= d)%Z with
  | Lt => fl
  | Gt => (fl + 1)%Z
  | Eq => if Z.even fl then fl else (fl + 1)%Z
  end.

(** [f"{x:.1f}"] for a finite float [x]; a finite float is a (dyadic)
    rational, and the conversion rounds its exact value to one decimal,
    ties to even. *)
Definition format_1f (x : Q) : string :=
  let t := round_half_even (Qabs x * 10) in
  (if (Qnum x <? 0)%Z then "-" else "")
  +:+ str_of_int (t / 10) +:+ "." +:+ str_of_int (t mod 10).

(** [collections.deque(maxlen=...)]: [append] adds on the right and, when
    the bound is exceeded, drops one item on the left; [appendleft] is the
    mirror image. *)
Record deque (A : Type) : Type := {
  maxlen : option nat;
  items : list A
}.
Arguments maxlen {A} _.
Arguments items {A} _.

Definition deque_new {A} (m : option nat) : deque A :=
  {| maxlen := m; items := [] |}.

Definition needs_trim {A} (d : deque A) : bool :=
  match maxlen d with
  | Some m => (m <? length (items d))%nat
  | None => false
  end.

Definition deque_len {A} (d : deque A) : nat := length (items d).

Definition deque_append {A} (x : A) (d : deque A) : deque A :=
  let d' := {| maxlen := maxlen d; items := (items d ++ [x])%list |} in
  if needs_trim d' then {| maxlen := maxlen d; items := tail (items d') |}
  else d'.

Definition deque_appendleft {A} (x : A) (d : deque A) : deque A :=
  let d' := {| maxlen := maxlen d; items := x :: items d |} in
  if needs_trim d' then {| maxlen := maxlen d; items := removelast (items d') |}
  else d'.

End Py.

(* ===================================================================== *)
(** ** config.py *)
(* ===================================================================== *)

Module Config.
Import Py.

Record BotConfig : Type := {
  token : string;
  app_id : Z;
  owner_id : Z;
  guild_id : option Z;
  sync_global : bool;
  yt_cookies : option string;
  lavalink_host : string;
  lavalink_port : Z;
  lavalink_password : string
}.

(** The process environment [os.environ], as it stands once the optional
    [.env] file has been merged in ([setdefault] never overrides). *)
Abbreviation environ := (gmap string string).

(** [load_config] prints to standard output and may raise: a computation
    yields the lines printed so far and either an exception or a value. *)
Definition io (A : Type) : Type := list string * (exn + A).

#[export] Instance io_ret : MRet io := fun A a => ([], inr a).
#[export] Instance io_bind : MBind io := fun A B f m =>
  match m with
  | (out, inl e) => (out, inl e)
  | (out, inr a) => let '(out', r) := f a in (app out out', r)
  end.

Definition raise {A} (e : exn) : io A := ([], inl e).
Definition print (line : string) : io unit := ([line], inr tt).
Definition lift {A} (r : exn + A) : io A := ([], r).

(** The nested helper of [load_config]; [os.getenv k] is [env !! k]. *)
Fixpoint getenv_any (env : environ) (keys : list string)
    (default : option string) : option string :=
  match keys with
  | [] => default
  | k :: keys' =>
      match env !! k with
      | Some v =>
          if negb (String.eqb (strip v) "") then Some (strip v)
          else getenv_any env keys' default
      | None => getenv_any env keys' default
      end
  end.

Definition token_keys : list string := ["DISCORD_TOKEN"; "TOKEN"; "BOT_TOKEN"].
Definition app_id_keys : list string := ["APP_ID"; "APPLICATION_ID"; "CLIENT_ID"].
Definition owner_id_keys : list string := ["OWNER_ID"; "OWNER"; "BOT_OWNER"].
Definition guild_id_keys : list string := ["GUILD_ID"; "SERVER_ID"; "GUILD"].
Definition yt_cookies_keys : list string := ["YT_COOKIES"; "YOUTUBE_COOKIES"].

(** [int(s) if s.isdigit() else d]. *)
Definition int_if_digit (s : string) (d : Z) : io Z :=
  if isdigit s then lift (int s) else mret d.

(** [int(o) if o and o.isdigit() else None]. *)
Definition int_if_truthy_digit (o : option string) : io (option Z) :=
  match o with
  | Some g => if truthy g && isdigit g
              then n ← lift (int g); mret (Some n)
              else mret None
  | None => mret None
  end.

Definition load_config (env : environ) : io BotConfig :=
  let token := or_default (getenv_any env token_keys (Some "")) "" in
  let app_id_val := or_default (getenv_any env app_id_keys (Some "0")) "0" in
  let owner_id_val := or_default (getenv_any env owner_id_keys (Some "0")) "0" in
  let guild_id_env := getenv_any env guild_id_keys None in
  app_id ← int_if_digit app_id_val 0;
  owner_id ← int_if_digit owner_id_val 0;
  guild_id ← int_if_truthy_digit guild_id_env;
  sync_global ← match getenv_any env ["SYNC_GLOBAL"] (Some "false") with
                | Some s => mret (str_in (lower s) ["true"; "1"; "yes"])
                | None => raise (AttributeError
                            "'NoneType' object has no attribute 'lower'")
                end;
  let yt_cookies := getenv_any env yt_cookies_keys None in
  let lavalink_host :=
    or_default (getenv_any env ["LAVALINK_HOST"] (Some "localhost")) "localhost" in
  let lavalink_port_str :=
    or_default (getenv_any env ["LAVALINK_PORT"] (Some "2333")) "2333" in
  lavalink_port ← int_if_digit lavalink_port_str 2333;
  let lavalink_password :=
    or_default (getenv_any env ["LAVALINK_PASSWORD"] (Some "youshallnotpass"))
               "youshallnotpass" in
  _ ← print ("Debug: Lavalink password loaded: " +:+ lavalink_password);
  if negb (truthy token) then
    raise (ValueError
      "DISCORD_TOKEN is required but not found in environment variables or .env file")
  else if (app_id =? 0)%Z then
    raise (ValueError
      "APP_ID is required but not found in environment variables or .env file")
  else if (owner_id =? 0)%Z then
    raise (ValueError
      "OWNER_ID is required but not found in environment variables or .env file")
  else
    mret {| token := token;
            app_id := app_id;
            owner_id := owner_id;
            guild_id := guild_id;
            sync_global := sync_global;
            yt_cookies := yt_cookies;
            lavalink_host := lavalink_host;
            lavalink_port := lavalink_port;
            lavalink_password := lavalink_password |}.

End Config.


(* ===================================================================== *)
(** ** bot.py *)
(* ===================================================================== *)

Module Client.
Import Py Config.

Inductive level : Type := INFO | WARNING | ERROR.

(** [discord.Color.green()], [.orange()], [.red()]. *)
Inductive Color : Type := green | orange | red.

Record Embed : Type := {
  title : string;
  description : string;
  color : Color
}.

(** The arguments of [wavelink.Node(...)]. *)
Record Node : Type := {
  uri : string;
  password : string;
  identifier : string;
  retries : Z;
  heartbeat : Q
}.

(** What the client does to the outside world, in the order it happens. *)
Inductive action : Type :=
| Log (lvl : level) (msg : string)
| TreeSync (guild : option Z)
| CreateTask (t : nat)
| OwnerSend
| Sleep (seconds : Z)
| PoolConnect (nodes : list Node) (cache_capacity : Z)
| ResponseSendMessage (embed : Embed) (ephemeral : bool)
| FollowupSend (embed : Embed) (ephemeral : bool)
| CtxSend (embed : Embed).

Definition audit_entry : Type := gmap string string.

(** The session state that [Bot.__init__] sets up (presence, start time
    and the logger are left to the platform library). *)
Record Bot : Type := {
  config : BotConfig;
  _synced_per_guild : bool;
  _owner_dm_task : option nat;
  _startup_dm_sent : bool;
  dm_relay_targets : gset Z;
  audit_log_entries : deque audit_entry
}.

Definition Bot_new (cfg : BotConfig) : Bot :=
  {| config := cfg;
     _synced_per_guild := false;
     _owner_dm_task := None;
     _startup_dm_sent := false;
     dm_relay_targets := ∅;
     audit_log_entries := deque_new (Some 2000%nat) |}.

(** [Bot.__init__]: the configuration is loaded first, so a validation
    error leaves no client behind. *)
Definition Bot_init (env : environ) : io Bot :=
  cfg ← load_config env; mret (Bot_new cfg).

Definition set_synced_per_guild (v : bool) (b : Bot) : Bot :=
  {| config := config b;
     _synced_per_guild := v;
     _owner_dm_task := _owner_dm_task b;
     _startup_dm_sent := _startup_dm_sent b;
     dm_relay_targets := dm_relay_targets b;
     audit_log_entries := audit_log_entries b |}.

Definition set_owner_dm_task (t : option nat) (b : Bot) : Bot :=
  {| config := config b;
     _synced_per_guild := _synced_per_guild b;
     _owner_dm_task := t;
     _startup_dm_sent := _startup_dm_sent b;
     dm_relay_targets := dm_relay_targets b;
     audit_log_entries := audit_log_entries b |}.

Definition set_startup_dm_sent (v : bool) (b : Bot) : Bot :=
  {| config := config b;
     _synced_per_guild := _synced_per_guild b;
     _owner_dm_task := _owner_dm_task b;
     _startup_dm_sent := v;
     dm_relay_targets := dm_relay_targets b;
     audit_log_entries := audit_log_entries b |}.

Definition set_audit_log_entries (d : deque audit_entry) (b : Bot) : Bot :=
  {| config := config b;
     _synced_per_guild := _synced_per_guild b;
     _owner_dm_task := _owner_dm_task b;
     _startup_dm_sent := _startup_dm_sent b;
     dm_relay_targets := dm_relay_targets b;
     audit_log_entries := d |}.

(** Truth value of an [int | None]. *)
Definition truthy_id (o : option Z) : bool :=
  match o with
  | Some g => negb (g =? 0)%Z
  | None => false
  end.

(** *** on_ready *)

(** How [await self.tree.sync(...)] comes back. *)
Inductive sync_result : Type :=
| Synced (n : Z)
| SyncRaised (e : string).

(** [on_ready] from the [try] to its first suspension point: the actions
    performed and, when the handler is now waiting for [tree.sync], the
    guild it passed ([None] for the global sync). *)
Definition on_ready_enter (b : Bot) : list action * option (option Z) :=
  if sync_global (config b) then
    ([Log INFO "🔄 Syncing commands globally..."; TreeSync None], Some None)
  else if truthy_id (guild_id (config b)) && negb (_synced_per_guild b) then
    ([Log INFO ("🔄 Syncing commands for guild "
                +:+ from_option str_of_int "None" (guild_id (config b)) +:+ "...");
      TreeSync (guild_id (config b))],
     Some (guild_id (config b)))
  else
    ([Log INFO "ℹ️ Guild sync already completed or no guild ID configured"], None).

(** [on_ready] from the return of [tree.sync] to the end of the [try]. *)
Definition on_ready_resume (b : Bot) (guild : option Z) (r : sync_result)
    : Bot * list action :=
  match r with
  | SyncRaised e => (b, [Log ERROR ("❌ Failed to sync commands: " +:+ e)])
  | Synced n =>
      match guild with
      | None =>
          (b, [Log INFO ("✅ Synced " +:+ str_of_int n +:+ " global commands")])
      | Some g =>
          (set_synced_per_guild true b,
           [Log INFO ("✅ Synced " +:+ str_of_int n +:+ " commands for guild "
                      +:+ str_of_int g)])
      end
  end.

(** How a [_send_startup_dm] task ends. *)
Inductive dm_outcome : Type :=
| DmDelivered (owner_name : string)
| DmNoOwner
| DmRaised (e : string)
| DmCancelled.

(** [_send_startup_dm]: the task sleeps two seconds, fetches the owner and
    sends the embed; it reads nothing of the session on the way and sets
    [_startup_dm_sent] right after [owner.send] has returned. *)
Definition _send_startup_dm (b : Bot) (o : dm_outcome) : Bot * list action :=
  match o with
  | DmDelivered name =>
      (set_startup_dm_sent true b,
       [OwnerSend; Log INFO ("📨 Startup notification sent to owner " +:+ name)])
  | DmNoOwner => (b, [])
  | DmRaised e => (b, [Log ERROR ("❌ Failed to send startup DM to owner: " +:+ e)])
  | DmCancelled => (b, [])
  end.

(** The client inside its cooperative event loop: the session, the
    [on_ready] handlers suspended in [await self.tree.sync(...)], the
    startup tasks created and not yet ended, and the actions so far. *)
Record World : Type := {
  bot : Bot;
  ready_waiting : list (option Z);
  dm_tasks : list nat;
  next_task : nat;
  trace : list action
}.

Definition boot (cfg : BotConfig) : World :=
  {| bot := Bot_new cfg; ready_waiting := []; dm_tasks := [];
     next_task := 0; trace := [] |}.

(** What the loop delivers: a ready event from the gateway, the return of
    the [tree.sync] call the [i]-th suspended handler waits for, or the end
    of startup task [t]. *)
Inductive event : Type :=
| Ready
| SyncReturns (i : nat) (r : sync_result)
| DmTaskEnds (t : nat) (o : dm_outcome).

(** The last statement of [on_ready]: schedule the startup notification
    unless the flag says it was sent. *)
Definition on_ready_exit (w : World) : World :=
  if negb (_startup_dm_sent (bot w)) then
    {| bot := set_owner_dm_task (Some (next_task w)) (bot w);
       ready_waiting := ready_waiting w;
       dm_tasks := (dm_tasks w ++ [next_task w])%list;
       next_task := S (next_task w);
       trace := (trace w ++ [CreateTask (next_task w)])%list |}
  else w.

Definition step (w : World) (e : event) : World :=
  match e with
  | Ready =>
      let '(acts, waiting) := on_ready_enter (bot w) in
      match waiting with
      | Some g =>
          {| bot := bot w;
             ready_waiting := (ready_waiting w ++ [g])%list;
             dm_tasks := dm_tasks w;
             next_task := next_task w;
             trace := (trace w ++ acts)%list |}
      | None =>
          on_ready_exit
            {| bot := bot w;
               ready_waiting := ready_waiting w;
               dm_tasks := dm_tasks w;
               next_task := next_task w;
               trace := (trace w ++ acts)%list |}
      end
  | SyncReturns i r =>
      match ready_waiting w !! i with
      | Some g =>
          let '(b', acts) := on_ready_resume (bot w) g r in
          on_ready_exit
            {| bot := b';
               ready_waiting := delete i (ready_waiting w);
               dm_tasks := dm_tasks w;
               next_task := next_task w;
               trace := (trace w ++ acts)%list |}
      | None => w
      end
  | DmTaskEnds t o =>
      if bool_decide (t ∈ dm_tasks w) then
        let '(b', acts) := _send_startup_dm (bot w) o in
        {| bot := b';
           ready_waiting := ready_waiting w;
           dm_tasks := filter (λ t', t' ≠ t) (dm_tasks w);
           next_task := next_task w;
           trace := (trace w ++ acts)%list |}
      else w
  end.

Definition run (w : World) (es : list event) : World := foldl step w es.

(** [on_ready] from its first line to its last with no other event in
    between: the handler is entered and, if it suspended, its [tree.sync]
    call returns [r] at once. *)
Definition on_ready (w : World) (r : sync_result) : World :=
  step (step w Ready) (SyncReturns (length (ready_waiting w)) r).

(** Runs in which handlers and tasks take turns, each running to its end
    before the next event is delivered. *)
Inductive turn : Type :=
| ReadyTurn (r : sync_result)
| DmTurn (t : nat) (o : dm_outcome).

Definition take_turn (w : World) (t : turn) : World :=
  match t with
  | ReadyTurn r => on_ready w r
  | DmTurn t o => step w (DmTaskEnds t o)
  end.

Definition run_turns (w : World) (ts : list turn) : World := foldl take_turn w ts.

Definition is_sync (a : action) : bool :=
  match a with TreeSync _ => true | _ => false end.

Definition is_owner_send (a : action) : bool :=
  match a with OwnerSend => true | _ => false end.

(** Number of [tree.sync] calls, and of delivered startup messages. *)
Definition syncs (tr : list action) : nat := length (List.filter is_sync tr).
Definition owner_sends (tr : list action) : nat :=
  length (List.filter is_owner_send tr).

(** *** _wavelink_health_check *)

(** What an [await] can raise into the coroutine: [asyncio.CancelledError]
    derives from [BaseException], so [except Exception] lets it through;
    [Exception e] stands for an instance of any [Exception] subclass, [e]
    its text.  These are the two kinds the handlers of [bot.py] tell
    apart; [KeyboardInterrupt] and [SystemExit] are not considered. *)
Inductive raised : Type :=
| CancelledError
| Exception (e : string).

Inductive awaited : Type :=
| Returned
| Raised (r : raised).

(** The node list both [setup_hook] and the health check connect with. *)
Definition wavelink_nodes (cfg : BotConfig) : list Node :=
  [ {| uri := "http://" +:+ lavalink_host cfg +:+ ":"
              +:+ str_of_int (lavalink_port cfg);
       password := lavalink_password cfg;
       identifier := "main";
       retries := 3;
       heartbeat := 30 |} ].

(** What the surroundings answer during one turn of the loop:
    [self.is_closed()] at the loop test, how [asyncio.sleep(60)] comes
    back, whether [wavelink.Pool.nodes] is empty, and how
    [wavelink.Pool.connect] comes back if it is called. *)
Record tick : Type := {
  is_closed : bool;
  sleep_result : awaited;
  no_nodes : bool;
  connect_result : awaited
}.

Inductive loop_state : Type := Running | Stopped.

(** One turn of [while not self.is_closed(): ...]. *)
Definition health_iteration (b : Bot) (t : tick) : list action * loop_state :=
  if is_closed t then ([], Stopped)
  else
    match sleep_result t with
    | Raised CancelledError => ([Sleep 60], Stopped)
    | Raised (Exception e) =>
        ([Sleep 60; Log ERROR ("❌ Error in Wavelink health check: " +:+ e)],
         Running)
    | Returned =>
        if no_nodes t then
          let attempt :=
            [Sleep 60;
             Log WARNING "🎵 No Wavelink nodes available, attempting reconnection...";
             PoolConnect (wavelink_nodes (config b)) 100] in
          match connect_result t with
          | Returned =>
              ((attempt ++ [Log INFO "🎵 Wavelink nodes reconnected successfully"])%list,
               Running)
          | Raised (Exception e) =>
              ((attempt ++ [Log ERROR ("❌ Failed to reconnect Wavelink nodes: " +:+ e)])%list,
               Running)
          | Raised CancelledError => (attempt, Stopped)
          end
        else ([Sleep 60], Running)
    end.

(** The loop over the answers of successive turns; [Running] at the end
    means the task is still alive, waiting in its next turn. *)
Fixpoint _wavelink_health_check (b : Bot) (ticks : list tick)
    : list action * loop_state :=
  match ticks with
  | [] => ([], Running)
  | t :: ticks' =>
      match health_iteration b t with
      | (acts, Stopped) => (acts, Stopped)
      | (acts, Running) =>
          let '(acts', st) := _wavelink_health_check b ticks' in
          ((acts ++ acts')%list, st)
      end
  end.

Definition is_sleep (a : action) : bool :=
  match a with Sleep _ => true | _ => false end.

Definition is_connect (a : action) : bool :=
  match a with PoolConnect _ _ => true | _ => false end.

(** *** Command error handlers *)

(** [interaction.command.name] when there is a command, and
    [interaction.response.is_done()]. *)
Record Interaction : Type := {
  command : option string;
  response_is_done : bool
}.

(** An [app_commands.AppCommandError]: the class the handler tests with
    [isinstance], and [str(error)]. *)
Inductive app_error_class : Type :=
| app_CommandOnCooldown (retry_after : Q)
| app_MissingPermissions
| app_OtherError.

Record AppCommandError : Type := {
  app_class : app_error_class;
  app_str : string
}.

(** A [commands.CommandError], likewise. *)
Inductive cmd_error_class : Type :=
| cmd_CommandNotFound
| cmd_MissingPermissions
| cmd_CommandOnCooldown (retry_after : Q)
| cmd_OtherError.

Record CommandError : Type := {
  cmd_class : cmd_error_class;
  cmd_str : string
}.

(** [ctx.command.name] when there is a command. *)
Record Context : Type := {
  ctx_command : option string
}.

(** The [try: ... except Exception as e] around a send: [failure] is the
    text of the exception the send raised, if it raised. *)
Definition guarded_send (send : action) (failure : option string) : list action :=
  send :: match failure with
          | Some e => [Log ERROR ("❌ Failed to send error message: " +:+ e)]
          | None => []
          end.

Definition on_app_command_error (interaction : Interaction)
    (error : AppCommandError) (failure : option string) : list action :=
  let embed :=
    match app_class error with
    | app_CommandOnCooldown retry_after =>
        {| title := "⏰ Command on Cooldown";
           description := "Please wait " +:+ format_1f retry_after
                          +:+ " seconds before using this command again.";
           color := orange |}
    | app_MissingPermissions =>
        {| title := "🚫 Missing Permissions";
           description := "You don't have the required permissions to use this command.";
           color := red |}
    | app_OtherError =>
        {| title := "❌ Command Error";
           description := "An error occurred while executing the command. Please try again later.";
           color := red |}
    end in
  Log ERROR ("❌ App command error in "
             +:+ default "unknown" (command interaction) +:+ ": " +:+ app_str error)
  :: guarded_send
       (if response_is_done interaction
        then FollowupSend embed true
        else ResponseSendMessage embed true)
       failure.

Definition on_command_error (ctx : Context) (error : CommandError)
    (failure : option string) : list action :=
  Log ERROR ("❌ Prefix command error in "
             +:+ default "unknown" (ctx_command ctx) +:+ ": " +:+ cmd_str error)
  :: match cmd_class error with
     | cmd_CommandNotFound => []
     | cmd_MissingPermissions =>
         guarded_send
           (CtxSend
              {| title := "🚫 Missing Permissions";
                 description := "You don't have the required permissions to use this command.";
                 color := red |})
           failure
     | cmd_CommandOnCooldown retry_after =>
         guarded_send
           (CtxSend
              {| title := "⏰ Command on Cooldown";
                 description := "Please wait " +:+ format_1f retry_after
                                +:+ " seconds before using this command again.";
                 color := orange |})
           failure
     | cmd_OtherError =>
         guarded_send
           (CtxSend
              {| title := "❌ Command Error";
                 description := "An error occurred while executing the command. Please try again later.";
                 color := red |})
           failure
     end.

(** The actions a user of the platform gets to see. *)
Definition user_facing (a : action) : bool :=
  match a with
  | ResponseSendMessage _ _ | FollowupSend _ _ | CtxSend _ | OwnerSend => true
  | _ => false
  end.

End Client.

(* ===================================================================== *)
(** ** Views used to state the properties *)
(* ===================================================================== *)

Module Views.
Import Py Config Client.

(** First and last character are whitespace? *)
Definition head_space (s : string) : bool :=
  match s with
  | EmptyString => false
  | String c _ => isspace_char c
  end.

Fixpoint last_space (s : string) : bool :=
  match s with
  | EmptyString => false
  | String c s' => if is_empty s' then isspace_char c else last_space s'
  end.

(** A variable counts as set when it holds something besides whitespace. *)
Definition is_set (env : environ) (k : string) : bool :=
  match env !! k with
  | Some v => negb (String.eqb (strip v) "")
  | None => false
  end.

(** What a field resolves to when no default is supplied. *)
Definition resolved (env : environ) (keys : list string) : option string :=
  getenv_any env keys None.

(** The number a resolved id denotes, when it is a decimal literal of a
    non-zero number. *)
Definition id_value (o : option string) : option Z :=
  match o with
  | Some s =>
      match int s with
      | inr n => if (n =? 0)%Z then None else Some n
      | inl _ => None
      end
  | None => None
  end.

(** An optional numeric setting is convertible when [int] accepts it
    whenever [isdigit] lets it through: it is then made of decimal digits
    only, and of no more of them than the limit. *)
Definition convertible (o : option string) : bool :=
  match o with
  | Some s =>
      negb (isdigit s)
      || match int s with
         | inr _ => true
         | inl _ => false
         end
  | None => true
  end.

(** [int(s) if s.isdigit() else d] when the conversion cannot raise. *)
Definition int_or (d : Z) (s : string) : Z :=
  if isdigit s then int_acc 0 s else d.

(** Number of ready events among the events delivered. *)
Definition count_ready (es : list event) : nat :=
  length (List.filter (λ e, match e with Ready => true | _ => false end) es).

(** No [tree.sync] call of the turns raises. *)
Definition no_sync_raises (ts : list turn) : bool :=
  forallb (λ t, match t with ReadyTurn (SyncRaised _) => false | _ => true end) ts.

(** The embed an action carries to the user, if it carries one. *)
Definition embed_of (a : action) : option Embed :=
  match a with
  | ResponseSendMessage e _ | FollowupSend e _ | CtxSend e => Some e
  | _ => None
  end.

(** The slash-command class a prefix-command class corresponds to. *)
Definition app_class_of (c : cmd_error_class) : option app_error_class :=
  match c with
  | cmd_CommandNotFound => None
  | cmd_MissingPermissions => Some app_MissingPermissions
  | cmd_CommandOnCooldown r => Some (app_CommandOnCooldown r)
  | cmd_OtherError => Some app_OtherError
  end.

(** A turn of the health check that ends in cancellation: the sleep, or
    the reconnect the turn got to, raised [CancelledError]. *)
Definition cancelled (t : tick) : bool :=
  negb (is_closed t)
  && match sleep_result t with
     | Raised CancelledError => true
     | Raised (Exception _) => false
     | Returned =>
         no_nodes t
         && match connect_result t with
            | Raised CancelledError => true
            | _ => false
            end
     end.

(** A turn that is entered and not cancelled. *)
Definition survives (t : tick) : bool := negb (is_closed t) && negb (cancelled t).

(** A turn in which the sleep returns and the pool has no node. *)
Definition finds_no_nodes (t : tick) : bool :=
  negb (is_closed t)
  && match sleep_result t with Returned => no_nodes t | Raised _ => false end.

(** The insertions a bounded deque offers (the command modules that
    record audit entries are not among the sources). *)
Inductive insertion (A : Type) : Type :=
| Append (x : A)
| AppendLeft (x : A).
Arguments Append {A} _.
Arguments AppendLeft {A} _.

Definition insert_into {A} (d : deque A) (i : insertion A) : deque A :=
  match i with
  | Append x => deque_append x d
  | AppendLeft x => deque_appendleft x d
  end.

(** The sleeps and the reconnect attempts among some actions. *)
Definition sleeps (acts : list action) : list action := List.filter is_sleep acts.
Definition connects (acts : list action) : list action := List.filter is_connect acts.

End Views.

(* ===================================================================== *)
(** ** Sample inputs *)
(* ===================================================================== *)

Module Samples.
Import Py Config Client Views.

Definition env_zero_app_id : environ :=
  <["DISCORD_TOKEN" := "abc"]> (<["APP_ID" := "0"]> (<["OWNER_ID" := "7"]> ∅)).

Definition env_token_only : environ :=
  <["TOKEN" := "abc123"]> ∅.

Definition env_complete : environ :=
  <["TOKEN" := "abc123"]> (<["BOT_TOKEN" := "zzz"]> (<["APP_ID" := " 42 "]>
    (<["OWNER_ID" := "7"]> (<["GUILD_ID" := "  "]> (<["SERVER_ID" := "42"]> ∅))))).

Definition cfg_guild : BotConfig :=
  {| token := "abc123"; app_id := 42; owner_id := 7; guild_id := Some 42%Z;
     sync_global := false; yt_cookies := None; lavalink_host := "localhost";
     lavalink_port := 2333; lavalink_password := "youshallnotpass" |}.


Definition cfg_no_guild : BotConfig :=
  {| token := "abc123"; app_id := 42; owner_id := 7; guild_id := None;
     sync_global := false; yt_cookies := None; lavalink_host := "localhost";
     lavalink_port := 2333; lavalink_password := "youshallnotpass" |}.

Definition tick_ok : tick :=
  {| is_closed := false; sleep_result := Returned; no_nodes := false;
     connect_result := Returned |}.

Definition tick_reconnect_fails : tick :=
  {| is_closed := false; sleep_result := Returned; no_nodes := true;
     connect_result := Raised (Exception "connection refused") |}.

Definition tick_cancelled : tick :=
  {| is_closed := false; sleep_result := Raised CancelledError; no_nodes := true;
     connect_result := Returned |}.

Definition entry_first : audit_entry := {[ "action" := "first" ]}.
Definition entry_last : audit_entry := {[ "action" := "last" ]}.
Definition entries_between : list audit_entry := replicate 1999 ∅.

(** Required fields in order, and a guild id made of a superscript two. *)
Definition env_superscript_guild : environ :=
  <["DISCORD_TOKEN" := "abc"]> (<["APP_ID" := "42"]> (<["OWNER_ID" := "7"]>
    (<["GUILD_ID" := String (ascii_of_N 178) ""]> ∅))).


End Samples.

(* ===================================================================== *)
(** ** config.py: the [.env] fallback *)
(* ===================================================================== *)

Module EnvFile.
Import Py Config.

(** [s.startswith(c)] and [c in s] for a one-character [c]. *)
Definition startswith_char (c : ascii) (s : string) : bool :=
  match s with
  | EmptyString => false
  | String a _ => Ascii.eqb a c
  end.

Fixpoint contains_char (c : ascii) (s : string) : bool :=
  match s with
  | EmptyString => false
  | String a s' => Ascii.eqb a c || contains_char c s'
  end.

(** Stripping the characters that satisfy [p] from both ends. *)
Fixpoint lstrip_by (p : ascii -> bool) (s : string) : string :=
  match s with
  | EmptyString => EmptyString
  | String a s' => if p a then lstrip_by p s' else s
  end.

Fixpoint rstrip_by (p : ascii -> bool) (s : string) : string :=
  match s with
  | EmptyString => EmptyString
  | String a s' =>
      let r := rstrip_by p s' in
      if p a && is_empty r then EmptyString else String a r
  end.

Definition strip_by (p : ascii -> bool) (s : string) : string :=
  rstrip_by p (lstrip_by p s).

(** [s.strip(c)] for a one-character [c]. *)
Definition strip_char (c : ascii) (s : string) : string :=
  strip_by (fun a => Ascii.eqb a c) s.

Definition double_quote : ascii := ascii_of_N 34.
Definition single_quote : ascii := ascii_of_N 39.

(** [s.split(c, 1)] for a string that contains [c]: what stands before
    the first [c], and what stands after it. *)
Fixpoint split_once (c : ascii) (s : string) : string * string :=
  match s with
  | EmptyString => (EmptyString, EmptyString)
  | String a s' =>
      if Ascii.eqb a c then (EmptyString, s')
      else let '(k, v) := split_once c s' in (String a k, v)
  end.

Definition NUL : ascii := ascii_of_N 0.

(** What [os.environ.setdefault] raises when it has to store a pair the
    platform refuses. *)
Inductive environ_error : Type :=
| ValueError_embedded_null_byte
| ValueError_illegal_name
| OSError_invalid_argument.

(** [os.environ.setdefault(key, val)]: a key that is present is left
    alone; otherwise the pair is stored through [putenv], which refuses a
    NUL in either part, a [=] in the name and the empty name. *)
Definition setdefault (key val : string) (env : environ) : environ_error + environ :=
  match env !! key with
  | Some _ => inr env
  | None =>
      if contains_char NUL key || contains_char NUL val
      then inl ValueError_embedded_null_byte
      else if contains_char "=" key then inl ValueError_illegal_name
      else if is_empty key then inl OSError_invalid_argument
      else inr (<[key := val]> env)
  end.

(** The key and the value a line assigns, if it assigns one: [None] for a
    blank line, a comment and a line without [=]. *)
Definition parse_line (line : string) : option (string * string) :=
  let line := strip line in
  if is_empty line || startswith_char "#" line || negb (contains_char "=" line)
  then None
  else
    let '(key, val) := split_once "=" line in
    Some (strip key, strip_char single_quote (strip_char double_quote (strip val))).

(** The body of [with open(".env") as f: for line in f: ...] inside
    [try: ... except Exception: pass]: an exception ends the loop and
    leaves the environment as the lines before it made it. *)
Fixpoint merge_lines (lines : list string) (env : environ) : environ :=
  match lines with
  | [] => env
  | line :: rest =>
      match parse_line line with
      | None => merge_lines rest env
      | Some (key, val) =>
          match setdefault key val env with
          | inr env' => merge_lines rest env'
          | inl _ => env
          end
      end
  end.

(** The fallback taken when [dotenv] cannot be imported; [file] is [None]
    when [.env] cannot be opened. *)
Definition dotenv_fallback (file : option (list string)) (env : environ) : environ :=
  match file with
  | Some lines => merge_lines lines env
  | None => env
  end.

End EnvFile.

Module EnvFileViews.
Import Py Config EnvFile Views.

(** Reading the lines stops early: some assignment raises. *)
Fixpoint aborts (lines : list string) (env : environ) : bool :=
  match lines with
  | [] => false
  | line :: rest =>
      match parse_line line with
      | None => aborts rest env
      | Some (key, val) =>
          match setdefault key val env with
          | inr env' => aborts rest env'
          | inl _ => true
          end
      end
  end.

(** First and last character satisfy [p]? *)
Definition head_by (p : ascii -> bool) (s : string) : bool :=
  match s with
  | EmptyString => false
  | String a _ => p a
  end.

Fixpoint last_by (p : ascii -> bool) (s : string) : bool :=
  match s with
  | EmptyString => false
  | String a s' => if is_empty s' then p a else last_by p s'
  end.

(** Whitespace or a quote. *)
Definition space_or_quote (a : ascii) : bool :=
  isspace_char a || Ascii.eqb a double_quote || Ascii.eqb a single_quote.

(** A name one can write on the left of [=]: not empty, no [=], no
    whitespace at either end, not starting a comment. *)
Definition plain_key (k : string) : bool :=
  negb (is_empty k) && negb (contains_char "=" k)
  && negb (head_by isspace_char k) && negb (last_by isspace_char k)
  && negb (startswith_char "#" k).

(** A value with neither whitespace nor a quote at either end. *)
Definition plain_value (v : string) : bool :=
  negb (head_by space_or_quote v) && negb (last_by space_or_quote v).

(** [c + v + c]. *)
Definition quoted (c : ascii) (v : string) : string :=
  String c (v +:+ String c EmptyString).

Definition sample_env_file : list string :=
  [ "# bot settings";
    "";
    "DISCORD_TOKEN = 'from-file'";
    "APP_ID=42";
    "=broken";
    "OWNER_ID=7" ].

Definition sample_process_env : environ :=
  <["TOKEN" := "from-process"]> (<["APP_ID" := "99"]> ∅).

End EnvFileViews.

Module LoaderViews.
Import Py Config.

(** The variables [load_config] asks the environment for. *)
Definition config_variables : list string :=
  token_keys ++ app_id_keys ++ owner_id_keys ++ guild_id_keys ++ ["SYNC_GLOBAL"]
  ++ yt_cookies_keys ++ ["LAVALINK_HOST"; "LAVALINK_PORT"; "LAVALINK_PASSWORD"].

End LoaderViews.

(* ===================================================================== *)
(** ** bot.py: start-up, shutdown, track start, auto-play, main *)
(* ===================================================================== *)

Module Lifecycle.
Import Py Config Client.

(** What a call can raise: besides instances of [Exception] ([Exc e], [e]
    the text of the exception) the two [BaseException]s that [except
    Exception] lets through. *)
Inductive thrown : Type :=
| Cancelled
| KeyboardInterrupt
| Exc (e : string).

Inductive answer (A : Type) : Type :=
| Returns (a : A)
| Raises (t : thrown).
Arguments Returns {A} _.
Arguments Raises {A} _.

(** How a coroutine ends: it returns, or an exception leaves it. *)
Inductive completion : Type :=
| Done
| Propagates (t : thrown).

(** An embed with its fields and footer. *)
Record Field : Type := {
  field_name : string;
  field_value : string;
  field_inline : bool
}.

Record RichEmbed : Type := {
  embed : Embed;
  fields : list Field;
  footer : option string
}.

Inductive op : Type :=
| OLog (lvl : level) (msg : string)
| OPrint (line : string)
| OSleep (seconds : Z)
| OPoolConnect (nodes : list Node) (cache_capacity : Z)
| OLoadExtension (cog : string)
| OCreateHealthTask
| OCancelHealthTask
| OCancelOwnerDmTask (t : nat)
| OGetPlayer (guild : Z)
| OPlayerDisconnect (guild : Z) (force : bool)
| OPoolClose
| OSuperClose
| OTextChannelSend (e : RichEmbed)
| OChannelConnect (guild channel : string)
| OSearch (query : string)
| OPlay (guild channel : string)
| OStart (token : string).

(** Running [k] after a part that may have ended by raising. *)
Definition and_then (x : list op * completion) (k : list op * completion)
    : list op * completion :=
  match x with
  | (ops, Done) => (ops ++ k.1, k.2)
  | (ops, Propagates t) => (ops, Propagates t)
  end.

(** [try: await call; on_success  except Exception as e: on_failure e]. *)
Definition guarded {A} (call : op) (a : answer A)
    (on_success : A -> list op) (on_failure : string -> list op)
    : list op * completion :=
  match a with
  | Returns x => (call :: on_success x, Done)
  | Raises (Exc e) => (call :: on_failure e, Done)
  | Raises t => ([call], Propagates t)
  end.

(** *** setup_hook *)

Definition cogs_to_load : list string :=
  ["cogs.general"; "cogs.tictactoe"; "cogs.blackjack"; "cogs.football";
   "cogs.music"; "jishaku"].

Fixpoint load_cogs (load_answer : string -> answer unit) (cogs : list string)
    : list op * completion :=
  match cogs with
  | [] => ([], Done)
  | cog :: rest =>
      and_then
        (guarded (OLoadExtension cog) (load_answer cog)
           (fun _ => [OLog INFO ("✅ Loaded cog: " +:+ cog)])
           (fun e => [OLog ERROR ("❌ Failed to load cog " +:+ cog +:+ ": " +:+ e)]))
        (load_cogs load_answer rest)
  end.

Definition setup_hook (b : Bot) (connect_answer : answer unit)
    (load_answer : string -> answer unit) : list op * completion :=
  and_then ([OLog INFO "🚀 Starting bot setup hook..."], Done)
  (and_then
     (guarded (OPoolConnect (wavelink_nodes (config b)) 100) connect_answer
        (fun _ => [OLog INFO "🎵 Wavelink nodes connected successfully"])
        (fun e => [OLog ERROR ("❌ Failed to connect Wavelink nodes: " +:+ e)]))
  (and_then (load_cogs load_answer cogs_to_load)
     ([OCreateHealthTask; OLog INFO "✅ Bot setup hook completed"], Done))).

(** *** close *)

(** What [wavelink.Pool.get_node().get_player(guild.id)] gives for a
    guild: it raises, there is no player, or there is one, whose
    [disconnect(force=True)] answers. *)
Inductive player_answer : Type :=
| GetPlayerRaises (t : thrown)
| NoPlayer
| PlayerFound (disconnect : answer unit).

Record Guild : Type := {
  g_id : Z;
  g_name : string;
  g_player : player_answer
}.

Definition disconnect_player (g : Guild) : list op * completion :=
  match g_player g with
  | GetPlayerRaises (Exc e) =>
      ([OGetPlayer (g_id g);
        OLog WARNING ("🎵 Error disconnecting player for guild "
                      +:+ g_name g +:+ ": " +:+ e)], Done)
  | GetPlayerRaises t => ([OGetPlayer (g_id g)], Propagates t)
  | NoPlayer => ([OGetPlayer (g_id g)], Done)
  | PlayerFound disconnect =>
      and_then ([OGetPlayer (g_id g)], Done)
        (guarded (OPlayerDisconnect (g_id g) true) disconnect
           (fun _ => [OLog INFO ("🎵 Disconnected player for guild " +:+ g_name g)])
           (fun e => [OLog WARNING ("🎵 Error disconnecting player for guild "
                                    +:+ g_name g +:+ ": " +:+ e)]))
  end.

Fixpoint disconnect_players (guilds : list Guild) : list op * completion :=
  match guilds with
  | [] => ([], Done)
  | g :: rest => and_then (disconnect_player g) (disconnect_players rest)
  end.

(** [close]: [has_health_task] is [hasattr(self, '_wavelink_health_task')]. *)
Definition close (b : Bot) (has_health_task : bool) (guilds : list Guild)
    (pool_close super_close : answer unit) : list op * completion :=
  and_then
    (OLog INFO "🔄 Bot is shutting down..."
     :: (if has_health_task then [OCancelHealthTask] else [])
     ++ match _owner_dm_task b with
        | Some t => [OCancelOwnerDmTask t]
        | None => []
        end, Done)
  (and_then (disconnect_players guilds)
  (and_then
     (guarded OPoolClose pool_close
        (fun _ => [OLog INFO "🎵 Wavelink pool closed"])
        (fun e => [OLog WARNING ("🎵 Error closing Wavelink pool: " +:+ e)]))
     match super_close with
     | Returns _ => ([OSuperClose; OLog INFO "✅ Bot shutdown completed"], Done)
     | Raises t => ([OSuperClose], Propagates t)
     end)).

(** *** on_wavelink_track_start *)

(** [f"{n:02d}"]. *)
Definition format_02d (n : Z) : string :=
  if (0 <=? n)%Z && (n <? 10)%Z then "0" +:+ str_of_int n else str_of_int n.

(** The duration shown for a track of [length] milliseconds. *)
Definition duration (length : Z) : string :=
  str_of_int (length / 60000) +:+ ":" +:+ format_02d ((length / 1000) mod 60).

(** [player.channel]: the attribute may be missing, hold [None], or hold
    a channel with a name. *)
Inductive channel_attr : Type :=
| NoChannelAttr
| ChannelIsNone
| ChannelNamed (name : string).

(** [has_text_channel] is [hasattr(player, 'text_channel') and
    player.text_channel]. *)
Record Player : Type := {
  has_text_channel : bool;
  channel : channel_attr
}.

(** [uri] is [None] when the track has no such attribute or holds
    [None]. *)
Record Track : Type := {
  track_title : string;
  track_author : string;
  track_uri : option string;
  track_length : Z
}.

Definition newline : string := String (ascii_of_N 10) EmptyString.

Definition now_playing (track : Track) (footer_text : string) : RichEmbed :=
  {| embed :=
       {| title := "🎵 Now Playing";
          description := "**" +:+ track_title track +:+ "**" +:+ newline
                         +:+ "by " +:+ track_author track;
          color := green |};
     fields :=
       match track_uri track with
       | Some u =>
           if truthy u
           then [ {| field_name := "Source";
                     field_value := "[Link](" +:+ u +:+ ")";
                     field_inline := true |} ]
           else []
       | None => []
       end
       ++ (if (track_length track =? 0)%Z then []
           else [ {| field_name := "Duration";
                     field_value := duration (track_length track);
                     field_inline := true |} ]);
     footer := Some footer_text |}.

Definition on_wavelink_track_start (player : Player) (track : Track)
    (send : answer unit) : list op * completion :=
  if has_text_channel player then
    let failed e := [OLog ERROR ("❌ Error sending now playing message: " +:+ e)] in
    match channel player with
    | ChannelIsNone => (failed "'NoneType' object has no attribute 'name'", Done)
    | NoChannelAttr =>
        guarded (OTextChannelSend (now_playing track "Requested in Unknown")) send
          (fun _ => []) failed
    | ChannelNamed name =>
        guarded (OTextChannelSend (now_playing track ("Requested in " +:+ name))) send
          (fun _ => []) failed
    end
  else ([], Done).

(** *** _attempt_auto_play *)

(** A voice channel and what its calls answer: [channel.connect],
    [wavelink.Playable.search] (were tracks found?) and [player.play]. *)
Record VoiceChannel : Type := {
  vc_name : string;
  vc_members : nat;
  vc_connect : answer unit;
  vc_search : answer bool;
  vc_play : answer unit
}.

Record VoiceGuild : Type := {
  vg_name : string;
  voice_channels : list VoiceChannel
}.

(** How the body of the inner loop ends for one channel. *)
Inductive loop_exit : Type :=
| NextChannel
| Return
| Leaves (t : thrown).

Definition try_channel (guild : string) (c : VoiceChannel) : list op * loop_exit :=
  if (0 <? vc_members c)%nat then
    let failed e := OLog WARNING ("🎵 Auto-play failed for " +:+ guild +:+ ": " +:+ e) in
    match vc_connect c with
    | Raises (Exc e) => ([OChannelConnect guild (vc_name c); failed e], NextChannel)
    | Raises t => ([OChannelConnect guild (vc_name c)], Leaves t)
    | Returns _ =>
        match vc_search c with
        | Raises (Exc e) =>
            ([OChannelConnect guild (vc_name c); OSearch "lofi hip hop"; failed e],
             NextChannel)
        | Raises t =>
            ([OChannelConnect guild (vc_name c); OSearch "lofi hip hop"], Leaves t)
        | Returns false =>
            ([OChannelConnect guild (vc_name c); OSearch "lofi hip hop"], NextChannel)
        | Returns true =>
            match vc_play c with
            | Raises (Exc e) =>
                ([OChannelConnect guild (vc_name c); OSearch "lofi hip hop";
                  OPlay guild (vc_name c); failed e], NextChannel)
            | Raises t =>
                ([OChannelConnect guild (vc_name c); OSearch "lofi hip hop";
                  OPlay guild (vc_name c)], Leaves t)
            | Returns _ =>
                ([OChannelConnect guild (vc_name c); OSearch "lofi hip hop";
                  OPlay guild (vc_name c);
                  OLog INFO ("🎵 Auto-play started in " +:+ guild +:+ " - "
                             +:+ vc_name c)], Return)
            end
        end
    end
  else ([], NextChannel).

Fixpoint try_channels (guild : string) (cs : list VoiceChannel)
    : list op * loop_exit :=
  match cs with
  | [] => ([], NextChannel)
  | c :: rest =>
      match try_channel guild c with
      | (ops, NextChannel) =>
          let '(ops', x) := try_channels guild rest in (ops ++ ops', x)
      | r => r
      end
  end.

Fixpoint try_guilds (gs : list VoiceGuild) : list op * loop_exit :=
  match gs with
  | [] => ([], NextChannel)
  | g :: rest =>
      match try_channels (vg_name g) (voice_channels g) with
      | (ops, NextChannel) =>
          let '(ops', x) := try_guilds rest in (ops ++ ops', x)
      | r => r
      end
  end.

Definition _attempt_auto_play (sleep : answer unit) (gs : list VoiceGuild)
    : list op * completion :=
  match sleep with
  | Raises (Exc e) => ([OSleep 10; OLog ERROR ("❌ Auto-play error: " +:+ e)], Done)
  | Raises t => ([OSleep 10], Propagates t)
  | Returns _ =>
      match try_guilds gs with
      | (ops, Leaves t) => (OSleep 10 :: ops, Propagates t)
      | (ops, _) => (OSleep 10 :: ops, Done)
      end
  end.

(** *** main *)

(** [str(e)]. *)
Definition exn_text (e : exn) : string :=
  match e with
  | ValueError msg => msg
  | AttributeError msg => msg
  end.

(** [main]: what [bot.start] answers, whether the client is closed when
    the [finally] clause runs, and what [bot.close] does if it is called. *)
Definition main (env : environ) (start : answer unit) (closed : bool)
    (closing : Bot -> list op * completion) : list op * completion :=
  match Bot_init env with
  | (out, inl e) => (OPrint <$> out, Propagates (Exc (exn_text e)))
  | (out, inr b) =>
      let body :=
        match start with
        | Returns _ => ([OStart (token (config b))], Done)
        | Raises KeyboardInterrupt =>
            ([OStart (token (config b));
              OPrint (newline
                      +:+ "🔄 Received interrupt signal, shutting down gracefully...")],
             Done)
        | Raises (Exc e) =>
            ([OStart (token (config b)); OPrint ("❌ Fatal error: " +:+ e)], Done)
        | Raises Cancelled => ([OStart (token (config b))], Propagates Cancelled)
        end in
      let finally :=
        and_then (if closed then ([], Done) else closing b)
                 ([OPrint "✅ Bot shutdown completed"], Done) in
      match body with
      | (ops, Done) => and_then ((OPrint <$> out) ++ ops, Done) finally
      | (ops, Propagates t) =>
          match finally with
          | (ops', Done) => ((OPrint <$> out) ++ ops ++ ops', Propagates t)
          | (ops', Propagates t') => ((OPrint <$> out) ++ ops ++ ops', Propagates t')
          end
      end
  end.

(** The [if __name__ == "__main__"] block around [asyncio.run(main())]. *)
Definition run_main (env : environ) (start : answer unit) (closed : bool)
    (closing : Bot -> list op * completion) : list op * completion :=
  match main env start closed closing with
  | (ops, Propagates KeyboardInterrupt) =>
      (ops ++ [OPrint (newline +:+ "👋 Goodbye!")], Done)
  | (ops, Propagates (Exc e)) =>
      (ops ++ [OPrint ("❌ Failed to start bot: " +:+ e)], Done)
  | r => r
  end.

End Lifecycle.

Module LifecycleViews.
Import Py Config Client Lifecycle.

(** An answer that [except Exception] copes with: a return or an
    [Exception]. *)
Definition benign {A} (a : answer A) : bool :=
  match a with
  | Returns _ | Raises (Exc _) => true
  | Raises _ => false
  end.

Definition benign_guild (g : Guild) : bool :=
  match g_player g with
  | GetPlayerRaises t => benign (@Raises unit t)
  | NoPlayer => true
  | PlayerFound disconnect => benign disconnect
  end.

Definition is_log (o : op) : bool :=
  match o with OLog _ _ => true | _ => false end.

Definition is_print (o : op) : bool :=
  match o with OPrint _ => true | _ => false end.

Definition is_send (o : op) : bool :=
  match o with OTextChannelSend _ => true | _ => false end.

(** What is done, the log left aside. *)
Definition deeds (ops : list op) : list op := List.filter (λ o, negb (is_log o)) ops.

(** What is done, the prints left aside. *)
Definition unprinted (ops : list op) : list op :=
  List.filter (λ o, negb (is_print o)) ops.

(** What [close] asks of one guild. *)
Definition guild_deeds (g : Guild) : list op :=
  OGetPlayer (g_id g)
  :: match g_player g with
     | PlayerFound _ => [OPlayerDisconnect (g_id g) true]
     | _ => []
     end.

Definition is_cancel_dm (o : op) : bool :=
  match o with OCancelOwnerDmTask _ => true | _ => false end.

(** The one informational log line of auto-play: playback has started. *)
Definition is_started (o : op) : bool :=
  match o with OLog INFO _ => true | _ => false end.

(** [on_ready] followed at once by the end of the startup task it may
    have created, so that no ready event overtakes a pending task. *)
Definition ready_then_task (w : World) (ro : sync_result * dm_outcome) : World :=
  step (on_ready w ro.1) (DmTaskEnds (next_task w) ro.2).

(** Where the inner loop body of auto-play ends without a [return],
    playback has not started; where it ends with one, the start is the
    last thing it did. *)
Definition started_last (r : list op * loop_exit) : Prop :=
  match r.2 with
  | Return => ∃ pre o, r.1 = pre ++ [o] ∧ is_started o = true
                       ∧ List.filter is_started pre = []
  | _ => List.filter is_started r.1 = []
  end.

(** Between two turns of [ready_then_task]: no handler is suspended, no
    task is pending, and a message already delivered has set the flag. *)
Definition settled (w : World) : Prop :=
  ready_waiting w = [] ∧ dm_tasks w = []
  ∧ (owner_sends (trace w) = 0
     ∨ owner_sends (trace w) = 1 ∧ _startup_dm_sent (bot w) = true).

(** Messages delivered and tasks pending never outnumber the tasks
    created; tasks created and handlers suspended never outnumber the
    ready events. *)
Definition accounted (n : nat) (w : World) : Prop :=
  owner_sends (trace w) + length (dm_tasks w) ≤ next_task w
  ∧ next_task w + length (ready_waiting w) ≤ n.

(** The session remembers the startup task created last, and only that
    one. *)
Definition latest_task (w : World) : option nat :=
  match next_task w with
  | 0 => None
  | S t => Some t
  end.

Definition sample_guilds : list Guild :=
  [ {| g_id := 1; g_name := "alpha";
       g_player := GetPlayerRaises (Exc "No nodes are currently assigned") |};
    {| g_id := 2; g_name := "beta";
       g_player := PlayerFound (Raises (Exc "timed out")) |};
    {| g_id := 3; g_name := "gamma"; g_player := NoPlayer |};
    {| g_id := 4; g_name := "delta"; g_player := PlayerFound (Returns tt) |} ].

Definition sample_track : Track :=
  {| track_title := "Song"; track_author := "Band";
     track_uri := Some "https://example.org/song"; track_length := 225500 |}.

Definition sample_voice_guilds : list VoiceGuild :=
  [ {| vg_name := "alpha";
       voice_channels :=
         [ {| vc_name := "empty"; vc_members := 0; vc_connect := Returns tt;
              vc_search := Returns true; vc_play := Returns tt |};
           {| vc_name := "lobby"; vc_members := 2;
              vc_connect := Raises (Exc "missing permissions");
              vc_search := Returns true; vc_play := Returns tt |} ] |};
    {| vg_name := "beta";
       voice_channels :=
         [ {| vc_name := "music"; vc_members := 1; vc_connect := Returns tt;
              vc_search := Returns true; vc_play := Returns tt |};
           {| vc_name := "later"; vc_members := 5; vc_connect := Returns tt;
              vc_search := Returns true; vc_play := Returns tt |} ] |} ].

End LifecycleViews.

(* ===================================================================== *)
(** ** Facts about the built-ins *)
(* ===================================================================== *)

Module PyFacts.
Import Py Views.

Lemma lstrip_head s : head_space (lstrip s) = false.
Proof.
  induction s as [|c s IH]; simpl; [done|].
  destruct (isspace_char c) eqn:Hc; [exact IH|]. simpl. exact Hc.
Qed.

Lemma rstrip_last s : last_space (rstrip s) = false.
Proof.
  induction s as [|c s IH]; simpl; [done|].
  destruct (isspace_char c) eqn:Hc, (is_empty (rstrip s)) eqn:He; simpl;
    rewrite ?He, ?Hc; auto.
Qed.

Lemma rstrip_head s : head_space s = false → head_space (rstrip s) = false.
Proof.
  destruct s as [|c s]; simpl; [done|]. intros Hc. rewrite Hc. simpl. exact Hc.
Qed.

Lemma lstrip_fix s : head_space s = false → lstrip s = s.
Proof. destruct s as [|c s]; simpl; [done|]. by intros ->. Qed.

Lemma rstrip_fix s : last_space s = false → rstrip s = s.
Proof.
  induction s as [|c s IH]; simpl; [done|].
  destruct s as [|c' s'].
  - simpl. by intros ->.
  - intros Hl. change (is_empty (String c' s')) with false in Hl.
    rewrite (IH Hl). simpl. by rewrite andb_false_r.
Qed.

Lemma strip_clean s : head_space (strip s) = false ∧ last_space (strip s) = false.
Proof.
  unfold strip. split; [apply rstrip_head, lstrip_head | apply rstrip_last].
Qed.

Lemma strip_fix s : head_space s = false → last_space s = false → strip s = s.
Proof. intros Hh Hl. unfold strip. rewrite (lstrip_fix _ Hh). by apply rstrip_fix. Qed.

Lemma strip_idem s : strip (strip s) = strip s.
Proof. destruct (strip_clean s). by apply strip_fix. Qed.

Lemma eqb_empty s : String.eqb s "" = is_empty s.
Proof. by destruct s. Qed.

Lemma isdecimal_isdigit_char c : isdecimal_char c = true → isdigit_char c = true.
Proof. unfold isdigit_char. by intros ->. Qed.

Lemma all_decimal_all_digit s :
  all_chars isdecimal_char s = true → all_chars isdigit_char s = true.
Proof.
  induction s as [|c s IH]; simpl; [done|].
  intros [Hc Hs]%andb_true_iff. rewrite (isdecimal_isdigit_char _ Hc). by apply IH.
Qed.

(** Whatever [int] accepts, [isdigit] lets through. *)
Lemma int_inr_isdigit s n : int s = inr n → isdigit s = true ∧ n = int_acc 0 s.
Proof.
  unfold int, isdigit. cbv zeta.
  destruct (int_max_str_digits <? leading_decimals s)%N; [done|].
  destruct (truthy s) eqn:Ht; simpl; [|done].
  destruct (all_chars isdecimal_char s) eqn:Hd; [|done].
  intros [= <-]. by rewrite (all_decimal_all_digit _ Hd).
Qed.

Lemma int_convertible s :
  isdigit s = true → convertible (Some s) = true → int s = inr (int_acc 0 s).
Proof.
  unfold convertible. intros ->. simpl.
  destruct (int s) as [e|n] eqn:Hs; [done|].
  by apply int_inr_isdigit in Hs as [_ ->].
Qed.

End PyFacts.

(* ===================================================================== *)
(** ** The configuration loader *)
(* ===================================================================== *)

Module ConfigFacts.
Import Py Config Client Views Samples PyFacts.

(** One unfolding step of [getenv_any], phrased with [is_set]. *)
Lemma getenv_any_cons env k keys default :
  getenv_any env (k :: keys) default =
    if is_set env k then strip <$> env !! k else getenv_any env keys default.
Proof.
  unfold is_set. simpl. destruct (env !! k) as [v|]; [|done].
  simpl. by destruct (negb _).
Qed.

(** The default only matters when no alias is set. *)
Lemma getenv_any_default env keys default :
  getenv_any env keys default =
    match resolved env keys with
    | Some r => Some r
    | None => default
    end.
Proof.
  unfold resolved. induction keys as [|k keys IH]; [done|].
  rewrite !getenv_any_cons. destruct (is_set env k) eqn:Hk; [|exact IH].
  unfold is_set in Hk. by destruct (env !! k).
Qed.

(** A resolved value is the stripped, non-empty content of one alias. *)
Lemma resolved_origin env keys r :
  resolved env keys = Some r →
  ∃ k v, k ∈ keys ∧ env !! k = Some v ∧ r = strip v ∧ is_empty r = false.
Proof.
  unfold resolved. induction keys as [|k keys IH]; [done|].
  rewrite getenv_any_cons. destruct (is_set env k) eqn:Hk.
  - unfold is_set in Hk. destruct (env !! k) as [v|] eqn:Hv; [|done].
    intros [= <-]. exists k, v. rewrite eqb_empty in Hk.
    split_and!; [left | done | done | by destruct (is_empty (strip v))].
  - intros (k' & v & ? & ? & ? & ?)%IH. exists k', v. split_and!; [by right|done..].
Qed.

Lemma or_default_resolved env keys d :
  or_default (getenv_any env keys (Some d)) d = default d (resolved env keys).
Proof.
  rewrite getenv_any_default. destruct (resolved env keys) as [r|] eqn:Hr; simpl.
  - apply resolved_origin in Hr as (_ & _ & _ & _ & _ & He).
    unfold truthy. by rewrite He.
  - by destruct (truthy d).
Qed.


Lemma getenv_any_skip env pre keys default :
  (∀ k, k ∈ pre → is_set env k = false) →
  getenv_any env (pre ++ keys) default = getenv_any env keys default.
Proof.
  induction pre as [|k pre IH]; intros Hpre; [done|].
  rewrite <- app_comm_cons, getenv_any_cons, (Hpre k) by left.
  apply IH. intros k' Hk'. apply Hpre. by right.
Qed.

Lemma io_bind_snd {A B} (m : io A) (f : A → io B) :
  (m ≫= f).2 = match m.2 with inl e => inl e | inr a => (f a).2 end.
Proof.
  unfold mbind, io_bind. destruct m as [out [e|a]]; [done|].
  simpl. by destruct (f a).
Qed.

Lemma int_exn s e : int s = inl e → ∃ msg, e = ValueError msg.
Proof. unfold int. cbv zeta. repeat case_match; intros; simplify_eq; eauto. Qed.

Lemma int_if_digit_exn s d e :
  (int_if_digit s d).2 = inl e → ∃ msg, e = ValueError msg.
Proof.
  unfold int_if_digit, lift. case_match; simpl; [apply int_exn|done].
Qed.

Lemma int_if_truthy_digit_exn o e :
  (int_if_truthy_digit o).2 = inl e → ∃ msg, e = ValueError msg.
Proof.
  destruct o as [g|]; [|done]. unfold int_if_truthy_digit.
  destruct (truthy g && isdigit g); [|done].
  rewrite io_bind_snd. unfold lift. cbn [snd].
  destruct (int g) eqn:Hg; [|done]. intros [= <-]. by eapply int_exn.
Qed.

Ltac io_next H :=
  rewrite io_bind_snd;
  match goal with
  | |- context [match snd ?m with inl _ => _ | inr _ => _ end] =>
      destruct (snd m) eqn:H
  end.

Lemma load_config_exn env e :
  (load_config env).2 = inl e → ∃ msg, e = ValueError msg.
Proof.
  unfold load_config. cbv zeta. rewrite !or_default_resolved.
  rewrite (getenv_any_default env ["SYNC_GLOBAL"]).
  io_next H1; [intros [= ?]; subst; by eapply int_if_digit_exn|].
  io_next H2; [intros [= ?]; subst; by eapply int_if_digit_exn|].
  io_next H3; [intros [= ?]; subst; by eapply int_if_truthy_digit_exn|].
  io_next H4; [by destruct (resolved env ["SYNC_GLOBAL"])|].
  io_next H5; [intros [= ?]; subst; by eapply int_if_digit_exn|].
  io_next H6; [done|].
  repeat case_match; simpl; intros; simplify_eq; eauto.
Qed.

(** What a returned record says about the environment. *)
Lemma load_config_inr env cfg :
  (load_config env).2 = inr cfg →
  token cfg = default "" (resolved env token_keys)
  ∧ truthy (token cfg) = true
  ∧ (int_if_digit (default "0" (resolved env app_id_keys)) 0).2 = inr (app_id cfg)
  ∧ app_id cfg ≠ 0%Z
  ∧ (int_if_digit (default "0" (resolved env owner_id_keys)) 0).2 = inr (owner_id cfg)
  ∧ owner_id cfg ≠ 0%Z.
Proof.
  unfold load_config. cbv zeta. rewrite !or_default_resolved.
  rewrite (getenv_any_default env ["SYNC_GLOBAL"]).
  io_next H1; [done|]. io_next H2; [done|]. io_next H3; [done|].
  io_next H4; [done|]. io_next H5; [done|]. io_next H6; [done|].
  destruct (truthy _) eqn:Ht; simpl; [|done].
  destruct (Z.eqb_spec z 0); [done|]. destruct (Z.eqb_spec z0 0); [done|].
  simpl. intros [= <-]. simpl. done.
Qed.

Lemma io_ret_bind {A B} (a : A) (f : A → io B) : mret a ≫= f = f a.
Proof. unfold mbind, io_bind, mret, io_ret. by destruct (f a). Qed.


Lemma id_value_int_if_digit o n :
  id_value o = Some n → int_if_digit (default "0" o) 0 = mret n ∧ n ≠ 0%Z.
Proof.
  destruct o as [s|]; simpl; [|done].
  destruct (int s) as [|z] eqn:Hs; [done|].
  destruct (Z.eqb_spec z 0); [done|]. intros [= <-].
  apply int_inr_isdigit in Hs as Hd. destruct Hd as [Hd _].
  unfold int_if_digit. rewrite Hd, Hs. done.
Qed.

Lemma int_if_digit_convertible s d :
  convertible (Some s) = true → int_if_digit s d = mret (int_or d s).
Proof.
  intros Hs. unfold int_if_digit, int_or. destruct (isdigit s) eqn:Hd; [|done].
  by rewrite (int_convertible _ Hd Hs).
Qed.

Lemma int_if_truthy_digit_convertible o :
  convertible o = true →
  int_if_truthy_digit o =
    mret (o ≫= λ g, if isdigit g then Some (int_acc 0 g) else None).
Proof.
  destruct o as [g|]; [|done]. intros Hs. unfold int_if_truthy_digit.
  replace (truthy g && isdigit g) with (isdigit g)
    by (unfold isdigit; by destruct (truthy g)).
  destruct (isdigit g) eqn:Hd; simpl; rewrite ?Hd; [|done].
  by rewrite (int_convertible _ Hd Hs).
Qed.


Lemma convertible_default o d :
  convertible o = true → convertible (Some d) = true →
  convertible (Some (default d o)) = true.
Proof. by destruct o. Qed.



(** The loader when all four conversions go through: one line printed,
    then the three checks in order, then the record. *)
Lemma load_config_convertible env :
  convertible (resolved env app_id_keys) = true →
  convertible (resolved env owner_id_keys) = true →
  convertible (resolved env guild_id_keys) = true →
  convertible (resolved env ["LAVALINK_PORT"]) = true →
  load_config env =
    (["Debug: Lavalink password loaded: "
      +:+ default "youshallnotpass" (resolved env ["LAVALINK_PASSWORD"])],
     if negb (truthy (default "" (resolved env token_keys)))
     then inl (ValueError
       "DISCORD_TOKEN is required but not found in environment variables or .env file")
     else if (int_or 0 (default "0" (resolved env app_id_keys)) =? 0)%Z
     then inl (ValueError
       "APP_ID is required but not found in environment variables or .env file")
     else if (int_or 0 (default "0" (resolved env owner_id_keys)) =? 0)%Z
     then inl (ValueError
       "OWNER_ID is required but not found in environment variables or .env file")
     else inr
       {| token := default "" (resolved env token_keys);
          app_id := int_or 0 (default "0" (resolved env app_id_keys));
          owner_id := int_or 0 (default "0" (resolved env owner_id_keys));
          guild_id := resolved env guild_id_keys
                      ≫= (λ g, if isdigit g then Some (int_acc 0 g) else None);
          sync_global :=
            str_in (lower (default "false" (resolved env ["SYNC_GLOBAL"])))
                   ["true"; "1"; "yes"];
          yt_cookies := resolved env yt_cookies_keys;
          lavalink_host := default "localhost" (resolved env ["LAVALINK_HOST"]);
          lavalink_port :=
            int_or 2333 (default "2333" (resolved env ["LAVALINK_PORT"]));
          lavalink_password :=
            default "youshallnotpass" (resolved env ["LAVALINK_PASSWORD"]) |}).
Proof.
  intros Ha Ho Hg Hp.
  unfold load_config. cbv zeta. rewrite !or_default_resolved.
  rewrite (getenv_any_default env ["SYNC_GLOBAL"]).
  fold (resolved env guild_id_keys). fold (resolved env yt_cookies_keys).
  rewrite (int_if_digit_convertible (default "0" (resolved env app_id_keys)))
    by (by apply convertible_default).
  rewrite io_ret_bind.
  rewrite (int_if_digit_convertible (default "0" (resolved env owner_id_keys)))
    by (by apply convertible_default).
  rewrite io_ret_bind.
  rewrite (int_if_truthy_digit_convertible _ Hg), io_ret_bind.
  destruct (resolved env ["SYNC_GLOBAL"]) as [sg|]; rewrite io_ret_bind;
    (rewrite int_if_digit_convertible by (by apply convertible_default));
    rewrite io_ret_bind; unfold mbind, io_bind, print, raise, mret, io_ret;
    (destruct (negb (truthy (default "" (resolved env token_keys)))); [done|]);
    (destruct (int_or 0 (default "0" (resolved env app_id_keys)) =? 0)%Z; [done|]);
    by destruct (int_or 0 (default "0" (resolved env owner_id_keys)) =? 0)%Z.
Qed.





(** The guard [isdigit] lets a superscript digit through that [int] then
    refuses: with every required field in order, the loader raises on
    such a guild id. *)
Lemma load_config_superscript_guild_raises :
  isdigit (String (ascii_of_N 178) "") = true
  ∧ ∃ msg, (load_config env_superscript_guild).2 = inl (ValueError msg).
Proof. split; [done|]. eexists. vm_compute. reflexivity. Qed.

(** C8.  Among the aliases of a field, the first one in priority order
    that is set decides the result, whatever the later ones hold: the
    result is its value (stripped; the value itself when it has no
    surrounding whitespace).  With [TOKEN=abc123] and no [DISCORD_TOKEN]
    the token resolves to [abc123]. *)
Theorem getenv_any_first_alias_wins :
  (∀ (env : environ) (pre post : list string) (k v : string)
     (default : option string),
     (∀ k', k' ∈ pre → is_set env k' = false) →
     env !! k = Some v →
     is_set env k = true →
     getenv_any env (pre ++ k :: post) default = Some (strip v)
     ∧ (head_space v = false → last_space v = false →
        getenv_any env (pre ++ k :: post) default = Some v))
  ∧ (∀ env : environ,
       is_set env "DISCORD_TOKEN" = false →
       env !! "TOKEN" = Some "abc123" →
       resolved env token_keys = Some "abc123"
       ∧ ∀ cfg, (load_config env).2 = inr cfg → token cfg = "abc123").
Proof.
  assert (∀ (env : environ) pre post k v default,
    (∀ k', k' ∈ pre → is_set env k' = false) →
    env !! k = Some v → is_set env k = true →
    getenv_any env (pre ++ k :: post) default = Some (strip v)) as Hfirst.
  { intros env pre post k v default Hpre Hk Hset.
    rewrite getenv_any_skip by done. by rewrite getenv_any_cons, Hset, Hk. }
  split.
  - intros env pre post k v default Hpre Hk Hset. split; [by apply Hfirst|].
    intros Hh Hl. rewrite (Hfirst _ _ _ _ v) by done. by rewrite strip_fix.
  - intros env Hd Ht.
    assert (resolved env token_keys = Some "abc123") as Htok.
    { apply (Hfirst env ["DISCORD_TOKEN"] ["BOT_TOKEN"] "TOKEN" "abc123" None);
        [by intros k' ->%list_elem_of_singleton | done |].
      unfold is_set. by rewrite Ht. }
    split; [done|]. intros cfg (-> & _)%load_config_inr. by rewrite Htok.
Qed.

(** The alias theorem at [GUILD_ID] blank before [SERVER_ID=42], and at
    the token scenario. *)
Lemma getenv_any_first_alias_wins_witness :
  getenv_any env_complete ["GUILD_ID"; "SERVER_ID"; "GUILD"] None = Some "42"
  ∧ resolved env_token_only token_keys = Some "abc123".
Proof.
  split.
  - refine (proj1 (proj1 getenv_any_first_alias_wins env_complete ["GUILD_ID"]
             ["GUILD"] "SERVER_ID" "42" None _ eq_refl eq_refl)).
    intros k' ->%list_elem_of_singleton. vm_compute. reflexivity.
  - exact (proj1 (proj2 getenv_any_first_alias_wins env_token_only eq_refl eq_refl)).
Defined.



End ConfigFacts.

(* ===================================================================== *)
(** ** The ready event and the startup notification *)
(* ===================================================================== *)

Module ReadyFacts.
Import Py Config Client Views Samples.

Lemma syncs_app l1 l2 : syncs (l1 ++ l2) = (syncs l1 + syncs l2)%nat.
Proof. unfold syncs. by rewrite List.filter_app, length_app. Qed.

Lemma owner_sends_app l1 l2 :
  owner_sends (l1 ++ l2) = (owner_sends l1 + owner_sends l2)%nat.
Proof. unfold owner_sends. by rewrite List.filter_app, length_app. Qed.

(** The last statement of [on_ready] touches neither the flags nor the
    suspended handlers, and calls no sync. *)
Lemma on_ready_exit_frame w :
  config (bot (on_ready_exit w)) = config (bot w)
  ∧ _synced_per_guild (bot (on_ready_exit w)) = _synced_per_guild (bot w)
  ∧ _startup_dm_sent (bot (on_ready_exit w)) = _startup_dm_sent (bot w)
  ∧ ready_waiting (on_ready_exit w) = ready_waiting w
  ∧ syncs (trace (on_ready_exit w)) = syncs (trace w)
  ∧ owner_sends (trace (on_ready_exit w)) = owner_sends (trace w).
Proof.
  unfold on_ready_exit. destruct (negb _); simpl; [|done].
  rewrite syncs_app, owner_sends_app. simpl. split_and!; try done; lia.
Qed.

Lemma on_ready_resume_frame b g r :
  config (on_ready_resume b g r).1 = config b
  ∧ _startup_dm_sent (on_ready_resume b g r).1 = _startup_dm_sent b
  ∧ syncs (on_ready_resume b g r).2 = 0%nat
  ∧ owner_sends (on_ready_resume b g r).2 = 0%nat
  ∧ (_synced_per_guild b = true → _synced_per_guild (on_ready_resume b g r).1 = true).
Proof. destruct r as [n|e], g as [g|]; simpl; done. Qed.

Lemma _send_startup_dm_frame b o :
  config (_send_startup_dm b o).1 = config b
  ∧ _synced_per_guild (_send_startup_dm b o).1 = _synced_per_guild b
  ∧ syncs (_send_startup_dm b o).2 = 0%nat.
Proof. destruct o; simpl; done. Qed.


Lemma on_ready_enter_guild b :
  sync_global (config b) = false →
  truthy_id (guild_id (config b)) = true →
  _synced_per_guild b = false →
  ∃ msg, on_ready_enter b =
    ([Log INFO msg; TreeSync (guild_id (config b))], Some (guild_id (config b))).
Proof. unfold on_ready_enter. intros -> -> ->. simpl. eauto. Qed.

Lemma on_ready_enter_idle b :
  sync_global (config b) = false →
  truthy_id (guild_id (config b)) = false ∨ _synced_per_guild b = true →
  on_ready_enter b =
    ([Log INFO "ℹ️ Guild sync already completed or no guild ID configured"], None).
Proof.
  unfold on_ready_enter. intros -> [-> | ->]; [done|].
  by rewrite andb_false_r.
Qed.

Lemma step_config w e : config (bot (step w e)) = config (bot w).
Proof.
  destruct e as [|i r|t o]; simpl.
  - destruct (on_ready_enter (bot w)) as [acts [g|]]; [done|].
    by destruct (on_ready_exit_frame
      {| bot := bot w; ready_waiting := ready_waiting w; dm_tasks := dm_tasks w;
         next_task := next_task w; trace := (trace w ++ acts)%list |}) as (-> & _).
  - destruct (ready_waiting w !! i) as [g|]; [|done].
    destruct (on_ready_resume (bot w) g r) as [b' acts] eqn:Hr.
    destruct (on_ready_exit_frame
      {| bot := b'; ready_waiting := delete i (ready_waiting w);
         dm_tasks := dm_tasks w; next_task := next_task w;
         trace := (trace w ++ acts)%list |}) as (-> & _). simpl.
    destruct (on_ready_resume_frame (bot w) g r) as (H & _). by rewrite Hr in H.
  - case_bool_decide as Hin; [|done].
    destruct (_send_startup_dm (bot w) o) as [b' acts] eqn:Hd. simpl.
    destruct (_send_startup_dm_frame (bot w) o) as (H & _). by rewrite Hd in H.
Qed.

Lemma run_config w es : config (bot (run w es)) = config (bot w).
Proof.
  revert w. induction es as [|e es IH]; intros w; [done|].
  simpl. by rewrite IH, step_config.
Qed.

(** The guild flag is never cleared. *)
Lemma step_synced_mono w e :
  _synced_per_guild (bot w) = true → _synced_per_guild (bot (step w e)) = true.
Proof.
  intros Hs. destruct e as [|i r|t o]; simpl.
  - destruct (on_ready_enter (bot w)) as [acts [g|]]; [done|].
    by destruct (on_ready_exit_frame
      {| bot := bot w; ready_waiting := ready_waiting w; dm_tasks := dm_tasks w;
         next_task := next_task w; trace := (trace w ++ acts)%list |}) as (_ & -> & _).
  - destruct (ready_waiting w !! i) as [g|]; [|done].
    destruct (on_ready_resume (bot w) g r) as [b' acts] eqn:Hr.
    destruct (on_ready_exit_frame
      {| bot := b'; ready_waiting := delete i (ready_waiting w);
         dm_tasks := dm_tasks w; next_task := next_task w;
         trace := (trace w ++ acts)%list |}) as (_ & -> & _). simpl.
    destruct (on_ready_resume_frame (bot w) g r) as (_ & _ & _ & _ & H).
    rewrite Hr in H. by apply H.
  - case_bool_decide as Hin; [|done].
    destruct (_send_startup_dm (bot w) o) as [b' acts] eqn:Hd. simpl.
    destruct (_send_startup_dm_frame (bot w) o) as (_ & H & _). rewrite Hd in H.
    simpl in H. congruence.
Qed.

(** Only a ready event calls [tree.sync], and it does so exactly when
    [on_ready_enter] says. *)
Lemma step_syncs w e :
  syncs (trace (step w e)) =
    (syncs (trace w)
     + match e with
       | Ready => syncs (on_ready_enter (bot w)).1
       | _ => 0
       end)%nat.
Proof.
  destruct e as [|i r|t o]; simpl.
  - destruct (on_ready_enter (bot w)) as [acts [g|]]; simpl.
    + by rewrite syncs_app.
    + destruct (on_ready_exit_frame
        {| bot := bot w; ready_waiting := ready_waiting w; dm_tasks := dm_tasks w;
           next_task := next_task w; trace := (trace w ++ acts)%list |})
        as (_ & _ & _ & _ & -> & _). simpl. by rewrite syncs_app.
  - destruct (ready_waiting w !! i) as [g|]; [|lia].
    destruct (on_ready_resume (bot w) g r) as [b' acts] eqn:Hr.
    destruct (on_ready_exit_frame
      {| bot := b'; ready_waiting := delete i (ready_waiting w);
         dm_tasks := dm_tasks w; next_task := next_task w;
         trace := (trace w ++ acts)%list |}) as (_ & _ & _ & _ & -> & _). simpl.
    destruct (on_ready_resume_frame (bot w) g r) as (_ & _ & H & _).
    rewrite Hr in H. simpl in H. rewrite syncs_app, H. lia.
  - case_bool_decide as Hin; [|lia].
    destruct (_send_startup_dm (bot w) o) as [b' acts] eqn:Hd. simpl.
    destruct (_send_startup_dm_frame (bot w) o) as (_ & _ & H). rewrite Hd in H.
    simpl in H. rewrite syncs_app, H. lia.
Qed.

Lemma run_snoc w es e : run w (es ++ [e]) = step (run w es) e.
Proof. unfold run. by rewrite foldl_app. Qed.

(** Once the guild flag is set, nothing that follows calls [tree.sync]. *)
Lemma run_no_sync_once_synced w es :
  sync_global (config (bot w)) = false →
  _synced_per_guild (bot w) = true →
  syncs (trace (run w es)) = syncs (trace w)
  ∧ _synced_per_guild (bot (run w es)) = true.
Proof.
  revert w. induction es as [|e es IH]; intros w Hg Hs; [done|].
  simpl. destruct (IH (step w e)) as [-> ->].
  - by rewrite step_config.
  - by apply step_synced_mono.
  - split; [|done]. rewrite step_syncs. destruct e; try lia.
    rewrite on_ready_enter_idle by auto. unfold syncs. simpl. lia.
Qed.

(** Without a guild id, guild mode never calls [tree.sync]. *)
Lemma run_no_sync_without_guild w es :
  sync_global (config (bot w)) = false →
  truthy_id (guild_id (config (bot w))) = false →
  syncs (trace (run w es)) = syncs (trace w).
Proof.
  revert w. induction es as [|e es IH]; intros w Hg Hn; [done|].
  simpl. rewrite IH by (by rewrite step_config).
  rewrite step_syncs. destruct e; try lia.
  rewrite on_ready_enter_idle by auto. unfold syncs. simpl. lia.
Qed.


Lemma step_ready_suspends w acts g :
  on_ready_enter (bot w) = (acts, Some g) →
  step w Ready =
    {| bot := bot w; ready_waiting := ready_waiting w ++ [g];
       dm_tasks := dm_tasks w; next_task := next_task w;
       trace := trace w ++ acts |}.
Proof. simpl. by intros ->. Qed.

Lemma step_ready_finishes w acts :
  on_ready_enter (bot w) = (acts, None) →
  step w Ready =
    on_ready_exit
      {| bot := bot w; ready_waiting := ready_waiting w;
         dm_tasks := dm_tasks w; next_task := next_task w;
         trace := trace w ++ acts |}.
Proof. simpl. by intros ->. Qed.

Lemma step_sync_returns w i g r :
  ready_waiting w !! i = Some g →
  step w (SyncReturns i r) =
    on_ready_exit
      {| bot := (on_ready_resume (bot w) g r).1;
         ready_waiting := delete i (ready_waiting w);
         dm_tasks := dm_tasks w; next_task := next_task w;
         trace := trace w ++ (on_ready_resume (bot w) g r).2 |}.
Proof. simpl. intros ->. by destruct (on_ready_resume (bot w) g r). Qed.

Lemma step_sync_returns_nobody w i r :
  ready_waiting w !! i = None → step w (SyncReturns i r) = w.
Proof. simpl. by intros ->. Qed.

(** One uninterrupted [on_ready] in guild mode: no handler is left
    waiting, and a sync is called only while the flag is unset; if it
    returns, the flag is set. *)
Lemma on_ready_guild_mode w r :
  sync_global (config (bot w)) = false →
  ready_waiting w = [] →
  ready_waiting (on_ready w r) = []
  ∧ (syncs (trace (on_ready w r)) = syncs (trace w)
     ∧ _synced_per_guild (bot (on_ready w r)) = _synced_per_guild (bot w)
     ∨ syncs (trace (on_ready w r)) = S (syncs (trace w))
       ∧ _synced_per_guild (bot w) = false
       ∧ (∀ n, r = Synced n → _synced_per_guild (bot (on_ready w r)) = true)).
Proof.
  intros Hg Hw. unfold on_ready. rewrite Hw. simpl length.
  destruct (truthy_id (guild_id (config (bot w))) && negb (_synced_per_guild (bot w)))
    eqn:Hgo.
  - apply andb_true_iff in Hgo as [Ht Hs%negb_true_iff].
    destruct (on_ready_enter_guild (bot w) Hg Ht Hs) as [msg He].
    rewrite (step_ready_suspends _ _ _ He), Hw.
    destruct (guild_id (config (bot w))) as [g|] eqn:Hgid; [|done].
    erewrite step_sync_returns by done.
    match goal with |- context [on_ready_exit ?x] =>
      destruct (on_ready_exit_frame x) as (_ & Hf & _ & Hrw & Hsy & _) end.
    rewrite Hrw, Hsy, Hf. cbn [ready_waiting trace bot].
    destruct (on_ready_resume_frame (bot w) (Some g) r) as (_ & _ & Hrs & _).
    split; [done|]. right.
    rewrite !syncs_app, Hrs. unfold syncs at 2. simpl.
    split_and!; [lia|done|]. by intros n ->.
  - assert (on_ready_enter (bot w) =
      ([Log INFO "ℹ️ Guild sync already completed or no guild ID configured"], None))
      as He.
    { apply on_ready_enter_idle; [done|].
      apply andb_false_iff in Hgo as [?|?%negb_false_iff]; auto. }
    rewrite (step_ready_finishes _ _ He), Hw.
    match goal with |- context [on_ready_exit ?x] =>
      destruct (on_ready_exit_frame x) as (_ & Hf & _ & Hrw & Hsy & _) end.
    cbn [ready_waiting trace bot] in *.
    rewrite step_sync_returns_nobody by (by rewrite Hrw).
    split; [done|]. left. rewrite Hsy, Hf, syncs_app. unfold syncs at 2. simpl.
    split; [lia|done].
Qed.

Lemma take_turn_config w t : config (bot (take_turn w t)) = config (bot w).
Proof. destruct t; unfold take_turn, on_ready; by rewrite ?step_config. Qed.

(** Turn by turn, with no sync raising, at most one sync is ever called. *)
Lemma run_turns_syncs w ts :
  sync_global (config (bot w)) = false →
  ready_waiting w = [] →
  no_sync_raises ts = true →
  syncs (trace w) = 0%nat
  ∨ syncs (trace w) = 1%nat ∧ _synced_per_guild (bot w) = true →
  (syncs (trace (run_turns w ts)) ≤ 1)%nat.
Proof.
  revert w. induction ts as [|t ts IH]; intros w Hg Hw Hts Hinv.
  { simpl. lia. }
  simpl in Hts. apply andb_true_iff in Hts as [Ht Hts]. simpl.
  apply IH; [by rewrite take_turn_config| |done|].
  - destruct t as [r|t o]; unfold take_turn.
    + by apply on_ready_guild_mode.
    + unfold step. case_bool_decide as Hin; [|done].
      by destruct (_send_startup_dm (bot w) o).
  - destruct t as [r|t o]; unfold take_turn.
    + destruct (on_ready_guild_mode w r Hg Hw) as (_ & [[-> ->]|(-> & Hs & Hset)]).
      * done.
      * destruct Hinv as [->|[_ ?]]; [|congruence]. right. split; [done|].
        destruct r as [n|e]; [by eapply Hset|done].
    + rewrite step_syncs. rewrite Nat.add_0_r.
      destruct Hinv as [?|[? Hs]]; [by left|right]. split; [done|].
      by apply step_synced_mono.
Qed.




(** Counterexample to C3 as stated: a guild sync that raises leaves the
    flag unset, and the next ready event runs the guild sync a second
    time. *)
Lemma guild_sync_retried_after_failure :
  sync_global cfg_guild = false
  ∧ _synced_per_guild (bot (on_ready (boot cfg_guild) (SyncRaised "403 Forbidden"))) = false
  ∧ syncs (trace (on_ready (boot cfg_guild) (SyncRaised "403 Forbidden"))) = 1%nat
  ∧ syncs (trace (on_ready (on_ready (boot cfg_guild) (SyncRaised "403 Forbidden"))
                           (Synced 5))) = 2%nat.
Proof. vm_compute. by repeat split. Qed.

(** C3, amended.  In guild mode, with ready handlers running one at a
    time and no sync call raising, the guild sync is called at most once
    in a process lifetime; once the flag is set, no later event performs
    a sync and the flag stays set; a ready event that finds no guild id or
    the flag set performs no sync; and without a guild id no sync is ever
    performed.  A sync that raises leaves the flag as it was, and a ready
    event that finds a guild id and the flag unset calls the sync. *)
Theorem guild_sync_once_flag_set :
  (∀ cfg ts,
     sync_global cfg = false →
     no_sync_raises ts = true →
     (syncs (trace (run_turns (boot cfg) ts)) ≤ 1)%nat)
  ∧ (∀ w es,
       sync_global (config (bot w)) = false →
       _synced_per_guild (bot w) = true →
       syncs (trace (run w es)) = syncs (trace w)
       ∧ _synced_per_guild (bot (run w es)) = true)
  ∧ (∀ w,
       sync_global (config (bot w)) = false →
       truthy_id (guild_id (config (bot w))) = false
       ∨ _synced_per_guild (bot w) = true →
       syncs (trace (step w Ready)) = syncs (trace w))
  ∧ (∀ w es,
       sync_global (config (bot w)) = false →
       truthy_id (guild_id (config (bot w))) = false →
       syncs (trace (run w es)) = syncs (trace w))
  ∧ (∀ w i g e,
       ready_waiting w !! i = Some g →
       _synced_per_guild (bot (step w (SyncReturns i (SyncRaised e))))
       = _synced_per_guild (bot w))
  ∧ (∀ w,
       sync_global (config (bot w)) = false →
       truthy_id (guild_id (config (bot w))) = true →
       _synced_per_guild (bot w) = false →
       syncs (trace (step w Ready)) = S (syncs (trace w))).
Proof.
  split_and!.
  - intros cfg ts Hg Hts. apply run_turns_syncs; auto.
  - intros w es Hg Hs. by apply run_no_sync_once_synced.
  - intros w Hg Hidle. rewrite step_syncs, on_ready_enter_idle by done.
    unfold syncs. simpl. lia.
  - intros w es Hg Hn. by apply run_no_sync_without_guild.
  - intros w i g e Hi. rewrite (step_sync_returns _ _ _ _ Hi).
    match goal with |- context [on_ready_exit ?x] =>
      destruct (on_ready_exit_frame x) as (_ & -> & _) end.
    done.
  - intros w Hg Ht Hs. rewrite step_syncs.
    destruct (on_ready_enter_guild _ Hg Ht Hs) as [msg ->].
    unfold syncs. simpl. lia.
Qed.

(** The guild-sync theorem at a configuration with guild 42 and at one
    without a guild. *)
Lemma guild_sync_once_flag_set_witness :
  (syncs (trace (run_turns (boot cfg_guild)
     [ReadyTurn (Synced 5); DmTurn 0 (DmDelivered "owner"); ReadyTurn (Synced 5)])) ≤ 1)%nat
  ∧ syncs (trace (run (on_ready (boot cfg_guild) (Synced 5)) [Ready; Ready]))
    = syncs (trace (on_ready (boot cfg_guild) (Synced 5)))
  ∧ syncs (trace (step (boot cfg_no_guild) Ready)) = syncs (trace (boot cfg_no_guild))
  ∧ syncs (trace (run (boot cfg_no_guild) [Ready; Ready; Ready]))
    = syncs (trace (boot cfg_no_guild)).
Proof.
  destruct guild_sync_once_flag_set as (Honce & Hafter & Hidle & Hnone & _).
  split_and!.
  - exact (Honce cfg_guild
             [ReadyTurn (Synced 5); DmTurn 0 (DmDelivered "owner"); ReadyTurn (Synced 5)]
             eq_refl eq_refl).
  - exact (proj1 (Hafter (on_ready (boot cfg_guild) (Synced 5)) [Ready; Ready]
                    eq_refl eq_refl)).
  - exact (Hidle (boot cfg_no_guild) eq_refl (or_introl eq_refl)).
  - exact (Hnone (boot cfg_no_guild) [Ready; Ready; Ready] eq_refl eq_refl).
Defined.

Lemma on_ready_enter_no_send b : owner_sends (on_ready_enter b).1 = 0.
Proof. unfold on_ready_enter. by repeat case_match. Qed.

Lemma on_ready_exit_sent w :
  _startup_dm_sent (bot w) = true → on_ready_exit w = w.
Proof. unfold on_ready_exit. by intros ->. Qed.

(** Once the notification flag is set and no startup task is pending, no
    further message goes to the owner. *)
Lemma run_no_send_once_sent w es :
  _startup_dm_sent (bot w) = true →
  dm_tasks w = [] →
  owner_sends (trace (run w es)) = owner_sends (trace w).
Proof.
  revert w. induction es as [|e es IH]; intros w Hs Hd; [done|].
  simpl.
  assert (_startup_dm_sent (bot (step w e)) = true
          ∧ dm_tasks (step w e) = []
          ∧ owner_sends (trace (step w e)) = owner_sends (trace w)) as (? & ? & <-).
  { destruct e as [|i r|t o].
    - pose proof (on_ready_enter_no_send (bot w)) as Hn.
      destruct (on_ready_enter (bot w)) as [acts [g|]] eqn:He.
      + rewrite (step_ready_suspends _ _ _ He). cbn [bot dm_tasks trace].
        rewrite owner_sends_app. simpl in Hn. split_and!; [done..|lia].
      + rewrite (step_ready_finishes _ _ He), on_ready_exit_sent by done.
        cbn [bot dm_tasks trace]. rewrite owner_sends_app. simpl in Hn.
        split_and!; [done..|lia].
    - destruct (ready_waiting w !! i) as [g|] eqn:Hi.
      + rewrite (step_sync_returns _ _ _ _ Hi).
        destruct (on_ready_resume_frame (bot w) g r) as (_ & Hf & _ & Hn & _).
        rewrite on_ready_exit_sent by (cbn [bot]; congruence).
        cbn [bot dm_tasks trace]. rewrite owner_sends_app, Hn.
        split_and!; [congruence|done|lia].
      + by rewrite (step_sync_returns_nobody _ _ _ Hi).
    - unfold step. rewrite Hd. by rewrite bool_decide_false by set_solver. }
  by apply IH.
Qed.

(** C4 fails on the code.  Two ready events arrive before the first
    startup task has ended: both find [_startup_dm_sent] unset, both
    schedule a task, and both tasks deliver the message. *)
Theorem startup_dm_sent_twice :
  _startup_dm_sent (bot (run (boot cfg_no_guild) [Ready; Ready])) = false
  ∧ dm_tasks (run (boot cfg_no_guild) [Ready; Ready]) = [0; 1]%nat
  ∧ owner_sends (trace (run (boot cfg_no_guild)
      [Ready; Ready;
       DmTaskEnds 0 (DmDelivered "owner"); DmTaskEnds 1 (DmDelivered "owner")]))
    = 2%nat.
Proof. vm_compute. by repeat split. Qed.

End ReadyFacts.

(* ===================================================================== *)
(** ** The audio-node health check *)
(* ===================================================================== *)

Module HealthCheckFacts.
Import Py Config Client Views Samples.

Lemma health_iteration_cases b t :
  (is_closed t = true ∧ health_iteration b t = ([], Stopped))
  ∨ (cancelled t = true ∧ (health_iteration b t).2 = Stopped)
  ∨ (survives t = true ∧ (health_iteration b t).2 = Running).
Proof.
  unfold health_iteration, survives, cancelled.
  destruct (is_closed t); [by left|right].
  destruct (sleep_result t) as [|[|e]]; simpl; auto.
  destruct (no_nodes t); simpl; auto.
  destruct (connect_result t) as [|[|e]]; simpl; auto.
Qed.

Lemma health_iteration_sleeps b t :
  is_closed t = false → sleeps (health_iteration b t).1 = [Sleep 60].
Proof.
  unfold health_iteration. intros ->.
  destruct (sleep_result t) as [|[|e]]; [|done..].
  destruct (no_nodes t); [|done].
  by destruct (connect_result t) as [|[|e]].
Qed.

Lemma health_iteration_head b t :
  is_closed t = false → ∃ rest, (health_iteration b t).1 = Sleep 60 :: rest.
Proof.
  unfold health_iteration. intros ->.
  destruct (sleep_result t) as [|[|e]]; [|eauto..].
  destruct (no_nodes t); [|eauto].
  destruct (connect_result t) as [|[|e]]; simpl; eauto.
Qed.

Lemma health_iteration_connects b t :
  connects (health_iteration b t).1 =
    if finds_no_nodes t then [PoolConnect (wavelink_nodes (config b)) 100] else [].
Proof.
  unfold health_iteration, finds_no_nodes.
  destruct (is_closed t); [done|].
  destruct (sleep_result t) as [|[|e]]; [|done..].
  destruct (no_nodes t); [|done].
  by destruct (connect_result t) as [|[|e]].
Qed.

Lemma health_check_cons b t ticks :
  _wavelink_health_check b (t :: ticks) =
    match (health_iteration b t).2 with
    | Stopped => ((health_iteration b t).1, Stopped)
    | Running =>
        ((health_iteration b t).1 ++ (_wavelink_health_check b ticks).1,
         (_wavelink_health_check b ticks).2)
    end.
Proof.
  simpl. destruct (health_iteration b t) as [acts []]; simpl; [|done].
  by destruct (_wavelink_health_check b ticks).
Qed.

Lemma survives_running b t : survives t = true → (health_iteration b t).2 = Running.
Proof.
  intros Hs. destruct (health_iteration_cases b t) as [[Hc _]|[[Hc _]|[_ ?]]]; [| |done].
  - unfold survives in Hs. by rewrite Hc in Hs.
  - unfold survives in Hs. rewrite Hc in Hs. by rewrite andb_false_r in Hs.
Qed.

Lemma cancelled_stopped b t : cancelled t = true → (health_iteration b t).2 = Stopped.
Proof.
  intros Hs. destruct (health_iteration_cases b t) as [[Hc _]|[[_ ?]|[Hc _]]]; [|done|].
  - unfold cancelled in Hs. by rewrite Hc in Hs.
  - unfold survives in Hc. rewrite Hs in Hc. by rewrite andb_false_r in Hc.
Qed.

Lemma health_check_survives b ticks :
  forallb survives ticks = true →
  (_wavelink_health_check b ticks).2 = Running
  ∧ sleeps (_wavelink_health_check b ticks).1 = replicate (length ticks) (Sleep 60).
Proof.
  induction ticks as [|t ticks IH]; [done|].
  simpl forallb. intros [Ht Hts]%andb_true_iff. destruct (IH Hts) as [IH1 IH2].
  rewrite health_check_cons, (survives_running _ _ Ht). cbn [fst snd].
  split; [done|]. unfold sleeps in *. rewrite List.filter_app, IH2.
  fold (sleeps (health_iteration b t).1). rewrite health_iteration_sleeps; [done|].
  unfold survives in Ht. by destruct (is_closed t).
Qed.

Lemma health_check_app_stopped b before t after :
  forallb survives before = true →
  (health_iteration b t).2 = Stopped →
  _wavelink_health_check b (before ++ t :: after) =
    ((_wavelink_health_check b before).1 ++ (health_iteration b t).1, Stopped).
Proof.
  intros Hb Ht. induction before as [|t' before IH].
  - simpl app. rewrite health_check_cons, Ht. done.
  - simpl in Hb. apply andb_true_iff in Hb as [Ht' Hb].
    rewrite <- app_comm_cons, !health_check_cons, (survives_running _ _ Ht').
    rewrite (IH Hb). cbn [fst snd]. by rewrite app_assoc.
Qed.

(** C5.  Every turn the loop enters starts with one sleep of 60 seconds;
    a turn reconnects, once and with the startup node list, exactly when
    the sleep returns and the pool has no node; a failed reconnect or any
    other [Exception] leaves the loop running, so that over turns without
    cancellation it is still running after as many sleeps as turns; and a
    cancellation stops it there, whatever turns would have followed. *)
Theorem health_check_loop (b : Bot) :
  (∀ t, is_closed t = false →
     sleeps (health_iteration b t).1 = [Sleep 60]
     ∧ ∃ rest, (health_iteration b t).1 = Sleep 60 :: rest)
  ∧ (∀ t, connects (health_iteration b t).1 =
       if finds_no_nodes t then [PoolConnect (wavelink_nodes (config b)) 100] else [])
  ∧ (∀ t e, is_closed t = false →
       sleep_result t = Raised (Exception e)
       ∨ sleep_result t = Returned ∧ connect_result t = Raised (Exception e) →
       survives t = true ∧ (health_iteration b t).2 = Running)
  ∧ (∀ ticks, forallb survives ticks = true →
       (_wavelink_health_check b ticks).2 = Running
       ∧ sleeps (_wavelink_health_check b ticks).1 = replicate (length ticks) (Sleep 60))
  ∧ (∀ before t after, forallb survives before = true → cancelled t = true →
       _wavelink_health_check b (before ++ t :: after) =
         ((_wavelink_health_check b before).1 ++ (health_iteration b t).1, Stopped)).
Proof.
  split_and!.
  - intros t Hc. split; [by apply health_iteration_sleeps|by apply health_iteration_head].
  - apply health_iteration_connects.
  - intros t e Hc Hexc.
    assert (survives t = true) as Hs.
    { unfold survives, cancelled. rewrite Hc.
      destruct Hexc as [-> | [-> ->]]; [done|]. simpl. by rewrite andb_false_r. }
    split; [done|]. by apply survives_running.
  - apply health_check_survives.
  - intros before t after Hb Ht. apply health_check_app_stopped; [done|].
    by apply cancelled_stopped.
Qed.

(** The loop theorem at a failing reconnect and at a cancelled sleep. *)
Lemma health_check_loop_witness :
  sleeps (health_iteration (Bot_new cfg_guild) tick_reconnect_fails).1 = [Sleep 60]
  ∧ (health_iteration (Bot_new cfg_guild) tick_reconnect_fails).2 = Running
  ∧ (_wavelink_health_check (Bot_new cfg_guild)
       [tick_reconnect_fails; tick_reconnect_fails; tick_ok]).2 = Running
  ∧ _wavelink_health_check (Bot_new cfg_guild)
       ([tick_reconnect_fails] ++ tick_cancelled :: [tick_reconnect_fails; tick_ok])
     = ((_wavelink_health_check (Bot_new cfg_guild) [tick_reconnect_fails]).1
          ++ (health_iteration (Bot_new cfg_guild) tick_cancelled).1, Stopped).
Proof.
  destruct (health_check_loop (Bot_new cfg_guild)) as (Hs & _ & Hf & Hrun & Hcancel).
  split_and!.
  - exact (proj1 (Hs tick_reconnect_fails eq_refl)).
  - exact (proj2 (Hf tick_reconnect_fails "connection refused" eq_refl
                    (or_intror (conj eq_refl eq_refl)))).
  - exact (proj1 (Hrun [tick_reconnect_fails; tick_reconnect_fails; tick_ok] eq_refl)).
  - exact (Hcancel [tick_reconnect_fails] tick_cancelled [tick_reconnect_fails; tick_ok]
             eq_refl eq_refl).
Defined.

End HealthCheckFacts.

(* ===================================================================== *)
(** ** The command error handlers *)
(* ===================================================================== *)

Module ErrorHandlerFacts.
Import Py Config Client Views Samples.

Lemma guarded_send_user_facing send failure :
  user_facing send = true →
  List.filter user_facing (guarded_send send failure) = [send].
Proof. unfold guarded_send. intros Hs. simpl. rewrite Hs. by destruct failure. Qed.

(** C6.  The slash-command handler shows the user exactly one message, an
    ephemeral embed chosen by the class of the error alone (the cooldown
    one with the remaining seconds to one decimal), sent as the
    interaction response unless a response was already given and as a
    follow-up otherwise; errors of one class get the same message whatever
    their text. *)
Theorem app_command_error_reply
    (interaction : Interaction) (error : AppCommandError) (failure : option string) :
  List.filter user_facing (on_app_command_error interaction error failure) =
    [ (if response_is_done interaction
       then FollowupSend else ResponseSendMessage)
        match app_class error with
        | app_CommandOnCooldown retry_after =>
            {| title := "⏰ Command on Cooldown";
               description := "Please wait " +:+ format_1f retry_after
                              +:+ " seconds before using this command again.";
               color := orange |}
        | app_MissingPermissions =>
            {| title := "🚫 Missing Permissions";
               description :=
                 "You don't have the required permissions to use this command.";
               color := red |}
        | app_OtherError =>
            {| title := "❌ Command Error";
               description :=
                 "An error occurred while executing the command. Please try again later.";
               color := red |}
        end
        true ]
  ∧ (∀ error' failure',
       app_class error' = app_class error →
       List.filter user_facing (on_app_command_error interaction error' failure')
       = List.filter user_facing (on_app_command_error interaction error failure)).
Proof.
  assert (∀ e f, List.filter user_facing (on_app_command_error interaction e f) =
    List.filter user_facing
      (on_app_command_error interaction {| app_class := app_class e; app_str := "" |} None))
    as Hclass.
  { intros e f. unfold on_app_command_error. cbn [List.filter user_facing app_class].
    rewrite !guarded_send_user_facing; [done|by destruct (response_is_done _)..]. }
  split.
  - rewrite Hclass. unfold on_app_command_error. cbn [List.filter user_facing app_class].
    rewrite guarded_send_user_facing by (by destruct (response_is_done _)).
    by destruct (response_is_done interaction).
  - intros error' failure' Hsame. by rewrite (Hclass error'), (Hclass error), Hsame.
Qed.

(** The reply theorem at two errors of the generic class with different
    texts. *)
Lemma app_command_error_reply_witness :
  List.filter user_facing
    (on_app_command_error {| command := Some "play"; response_is_done := false |}
       {| app_class := app_OtherError; app_str := "KeyError: 'secret'" |}
       (Some "HTTP 500"))
  = List.filter user_facing
      (on_app_command_error {| command := Some "play"; response_is_done := false |}
         {| app_class := app_OtherError; app_str := "division by zero" |} None).
Proof.
  exact (proj2 (app_command_error_reply
                  {| command := Some "play"; response_is_done := false |}
                  {| app_class := app_OtherError; app_str := "division by zero" |} None)
           {| app_class := app_OtherError; app_str := "KeyError: 'secret'" |}
           (Some "HTTP 500") eq_refl).
Defined.

(** C7.  The prefix-command handler shows the user nothing for a command
    that was not found; for every other class it sends one plain channel
    message whose embed is the one the slash-command handler uses for the
    corresponding class: the cooldown text with the remaining seconds,
    the permissions text, or the generic failure text. *)
Theorem command_error_reply
    (ctx : Context) (error : CommandError) (failure : option string) :
  (cmd_class error = cmd_CommandNotFound →
   List.filter user_facing (on_command_error ctx error failure) = [])
  ∧ (∀ c interaction app_error failure',
       app_class_of (cmd_class error) = Some c →
       app_class app_error = c →
       ∃ embed,
         List.filter user_facing (on_command_error ctx error failure) = [CtxSend embed]
         ∧ embed_of <$> List.filter user_facing
                          (on_app_command_error interaction app_error failure')
           = [Some embed])
  ∧ (∀ retry_after,
       cmd_class error = cmd_CommandOnCooldown retry_after →
       List.filter user_facing (on_command_error ctx error failure) =
         [CtxSend
            {| title := "⏰ Command on Cooldown";
               description := "Please wait " +:+ format_1f retry_after
                              +:+ " seconds before using this command again.";
               color := orange |}])
  ∧ (cmd_class error = cmd_OtherError →
     List.filter user_facing (on_command_error ctx error failure) =
       [CtxSend
          {| title := "❌ Command Error";
             description :=
               "An error occurred while executing the command. Please try again later.";
             color := red |}]).
Proof.
  split_and!.
  - unfold on_command_error. by intros ->.
  - intros c interaction app_error failure' Hc Happ.
    unfold on_app_command_error. cbn [List.filter user_facing]. rewrite Happ.
    rewrite guarded_send_user_facing by (by destruct (response_is_done _)).
    unfold on_command_error. cbn [List.filter user_facing].
    destruct (cmd_class error) as [| |r|]; cbn in Hc; [done|..]; injection Hc as <-;
      rewrite guarded_send_user_facing by done;
      eexists; (split; [reflexivity|]); by destruct (response_is_done interaction).
  - intros r Hc. unfold on_command_error. rewrite Hc. cbn [List.filter user_facing].
    by rewrite guarded_send_user_facing.
  - intros Hc. unfold on_command_error. rewrite Hc. cbn [List.filter user_facing].
    by rewrite guarded_send_user_facing.
Qed.

(** The reply theorem at a command that was not found and at a
    cooldown of 2.5 seconds. *)
Lemma command_error_reply_witness :
  List.filter user_facing
    (on_command_error {| ctx_command := None |}
       {| cmd_class := cmd_CommandNotFound; cmd_str := "Command 'foo' is not found" |}
       None) = []
  ∧ List.filter user_facing
      (on_command_error {| ctx_command := Some "play" |}
         {| cmd_class := cmd_CommandOnCooldown (5 # 2); cmd_str := "cooldown" |} None)
    = [CtxSend
         {| title := "⏰ Command on Cooldown";
            description := "Please wait 2.5 seconds before using this command again.";
            color := orange |}].
Proof.
  split.
  - exact (proj1 (command_error_reply {| ctx_command := None |}
       {| cmd_class := cmd_CommandNotFound; cmd_str := "Command 'foo' is not found" |}
       None) eq_refl).
  - exact (proj1 (proj2 (proj2 (command_error_reply {| ctx_command := Some "play" |}
       {| cmd_class := cmd_CommandOnCooldown (5 # 2); cmd_str := "cooldown" |} None)))
       (5 # 2)%Q eq_refl).
Defined.

End ErrorHandlerFacts.

(* ===================================================================== *)
(** ** The audit buffer *)
(* ===================================================================== *)

Module AuditBufferFacts.
Import Py Config Client Views Samples.

Section Deque.
Context {A : Type}.
Implicit Types (d : deque A) (x : A) (l : list A).

Lemma insert_into_maxlen d i : maxlen (insert_into d i) = maxlen d.
Proof.
  destruct i; simpl; unfold deque_append, deque_appendleft;
    by destruct (needs_trim _).
Qed.

Lemma length_removelast l : length (removelast l) = pred (length l).
Proof.
  induction l as [|x [|y l] IH]; [done..|].
  change (removelast (x :: y :: l)) with (x :: removelast (y :: l)).
  simpl length in *. lia.
Qed.

(** An insertion keeps a bounded deque within its bound. *)
Lemma insert_into_bounded d i m :
  maxlen d = Some m → length (items d) ≤ m → length (items (insert_into d i)) ≤ m.
Proof.
  intros Hm Hlen.
  destruct i as [x|x]; simpl; unfold deque_append, deque_appendleft, needs_trim;
    cbn [maxlen items]; rewrite Hm.
  - destruct (Nat.ltb_spec m (length (items d ++ [x]))) as [Hlt|Hge];
      cbn [items]; [|done].
    rewrite length_app in Hlt. simpl in Hlt.
    destruct (items d ++ [x]) eqn:Heq; simpl; [lia|].
    apply (f_equal length) in Heq. rewrite length_app in Heq. simpl in Heq. lia.
  - destruct (Nat.ltb_spec m (length (x :: items d))) as [Hlt|Hge];
      cbn [items]; [|done].
    rewrite length_removelast. simpl. lia.
Qed.

Lemma foldl_insert_bounded d ops m :
  maxlen d = Some m → length (items d) ≤ m →
  length (items (foldl insert_into d ops)) ≤ m.
Proof.
  revert d. induction ops as [|i ops IH]; intros d Hm Hlen; [done|].
  simpl. apply IH; [by rewrite insert_into_maxlen|by apply insert_into_bounded].
Qed.

Lemma deque_append_items d x m :
  maxlen d = Some m → length (items d) ≤ m →
  items (deque_append x d) = drop (length (items d ++ [x]) - m) (items d ++ [x]).
Proof.
  intros Hm Hlen. unfold deque_append, needs_trim. cbn [maxlen items]. rewrite Hm.
  rewrite length_app. simpl length.
  destruct (Nat.ltb_spec m (length (items d) + 1)) as [Hlt|Hge]; cbn [items].
  - replace (length (items d) + 1 - m) with 1 by lia. by destruct (items d ++ [x]).
  - by replace (length (items d) + 1 - m) with 0 by lia.
Qed.

(** After any run of appends the deque holds the last [m] items. *)
Lemma foldl_append_items d l m :
  maxlen d = Some m → length (items d) ≤ m →
  items (foldl (λ d x, deque_append x d) d l)
  = drop (length (items d ++ l) - m) (items d ++ l).
Proof.
  revert d. induction l as [|x l IH]; intros d Hm Hlen.
  - simpl. rewrite app_nil_r. by replace (length (items d) - m) with 0 by lia.
  - simpl foldl. rewrite IH.
    + rewrite (deque_append_items _ _ _ Hm Hlen).
      set (L := items d ++ [x]). set (k := length L - m).
      assert (k ≤ length L) by lia.
      replace (items d ++ x :: l) with (L ++ l) by (subst L; by rewrite <- app_assoc).
      rewrite <- (drop_app_le L l k) by done.
      rewrite drop_drop. f_equal. rewrite length_drop, !length_app. lia.
    + unfold deque_append. by destruct (needs_trim _).
    + apply (insert_into_bounded d (Append x) m Hm Hlen).
Qed.
End Deque.

(** C9.  The audit buffer of a new client is bounded by 2000: after any
    sequence of insertions it holds at most 2000 entries, and after 2001
    appends it holds the last 2000 of them, so the newest is in it and the
    oldest, unless an equal entry came later, is not. *)
Theorem audit_buffer_bounded (cfg : BotConfig) :
  maxlen (audit_log_entries (Bot_new cfg)) = Some 2000
  ∧ (∀ ops : list (insertion audit_entry),
       deque_len (foldl insert_into (audit_log_entries (Bot_new cfg)) ops) ≤ 2000)
  ∧ (∀ (oldest newest : audit_entry) (between : list audit_entry),
       length between = 1999 →
       let buffer :=
         foldl (λ d x, deque_append x d) (audit_log_entries (Bot_new cfg))
               (oldest :: between ++ [newest]) in
       items buffer = between ++ [newest]
       ∧ newest ∈ items buffer
       ∧ (oldest ∉ between ++ [newest] → oldest ∉ items buffer)).
Proof.
  split_and!.
  - done.
  - intros ops. unfold deque_len. apply foldl_insert_bounded; [done|]. simpl. lia.
  - intros oldest newest between Hlen buffer.
    assert (items buffer = between ++ [newest]) as Hitems.
    { subst buffer. rewrite (foldl_append_items _ _ 2000); [|done|simpl; lia].
      change (items (audit_log_entries (Bot_new cfg))) with (@nil audit_entry).
      rewrite app_nil_l. cbn [length]. rewrite length_app, Hlen. 
      replace (S (1999 + length [newest]) - 2000) with 1 by (simpl; lia). done. }
    rewrite Hitems. split_and!; [done| |done].
    apply elem_of_app. right. by left.
Qed.

(** The buffer theorem at 2001 entries, the first and the last marked. *)
Lemma audit_buffer_bounded_witness :
  let buffer :=
    foldl (λ d x, deque_append x d) (audit_log_entries (Bot_new cfg_guild))
          (entry_first :: entries_between ++ [entry_last]) in
  items buffer = entries_between ++ [entry_last]
  ∧ entry_last ∈ items buffer
  ∧ entry_first ∉ items buffer.
Proof.
  destruct (proj2 (proj2 (audit_buffer_bounded cfg_guild))
              entry_first entry_last entries_between eq_refl) as (H1 & H2 & H3).
  split_and!; [exact H1 | exact H2 | apply H3].
  intros [[Heq _]%elem_of_replicate | Heq%list_elem_of_singleton]%elem_of_app.
  - apply (f_equal (lookup "action")) in Heq. vm_compute in Heq. discriminate.
  - apply (f_equal (lookup "action")) in Heq. vm_compute in Heq. discriminate.
Defined.

End AuditBufferFacts.

(* ===================================================================== *)
(** ** The [.env] fallback *)
(* ===================================================================== *)

Module EnvFileFacts.
Import Py Config EnvFile Views EnvFileViews PyFacts ConfigFacts.

Lemma setdefault_present key val env v :
  env !! key = Some v → setdefault key val env = inr env.
Proof. unfold setdefault. by intros ->. Qed.

Lemma setdefault_inr key val env env' :
  setdefault key val env = inr env' →
  env' = env ∧ is_Some (env !! key)
  ∨ env' = <[key := val]> env ∧ env !! key = None.
Proof.
  unfold setdefault. destruct (env !! key) eqn:Hk.
  - intros [= <-]. left. eauto.
  - repeat case_match; intros; simplify_eq. by right.
Qed.

Lemma setdefault_subseteq key val env env' :
  setdefault key val env = inr env' → env ⊆ env'.
Proof.
  intros [[-> _]|[-> Hk]]%setdefault_inr; [done|]. by apply insert_subseteq.
Qed.

Lemma setdefault_lookup key val env env' :
  setdefault key val env = inr env' → is_Some (env' !! key).
Proof.
  intros [[-> ?]|[-> Hk]]%setdefault_inr; [done|]. rewrite lookup_insert_eq. eauto.
Qed.

(** Merging never removes or changes a binding. *)
Lemma merge_lines_subseteq lines env : env ⊆ merge_lines lines env.
Proof.
  revert env. induction lines as [|line rest IH]; intros env; [done|].
  simpl. destruct (parse_line line) as [[key val]|]; [|apply IH].
  destruct (setdefault key val env) as [e|env'] eqn:Hs; [done|].
  etrans; [by eapply setdefault_subseteq | apply IH].
Qed.

(** Every binding of the merged environment was there before or is
    written on a line. *)
Lemma merge_lines_origin lines env k v :
  merge_lines lines env !! k = Some v →
  env !! k = Some v ∨ ∃ line, line ∈ lines ∧ parse_line line = Some (k, v).
Proof.
  revert env. induction lines as [|line rest IH]; intros env; [by left|].
  simpl. destruct (parse_line line) as [[key val]|] eqn:Hp.
  - destruct (setdefault key val env) as [e|env'] eqn:Hs; [by left|].
    intros [Hk | (l & Hl & Hpl)]%IH.
    + apply setdefault_inr in Hs as [[-> _]|[-> Hnone]]; [by left|].
      destruct (decide (key = k)) as [->|Hne].
      * rewrite lookup_insert_eq in Hk. injection Hk as ->.
        right. exists line. split; [left|done].
      * rewrite lookup_insert_ne in Hk by done. by left.
    + right. exists l. split; [by right|done].
  - intros [Hk | (l & Hl & Hpl)]%IH; [by left|].
    right. exists l. split; [by right|done].
Qed.

Lemma merge_lines_app pre rest env :
  merge_lines (pre ++ rest) env =
    if aborts pre env then merge_lines pre env
    else merge_lines rest (merge_lines pre env).
Proof.
  revert env. induction pre as [|line pre IH]; intros env; [done|].
  simpl. destruct (parse_line line) as [[key val]|]; [|apply IH].
  destruct (setdefault key val env) as [e|env']; [done|apply IH].
Qed.

Lemma aborts_app pre rest env :
  aborts (pre ++ rest) env =
    aborts pre env || aborts rest (merge_lines pre env).
Proof.
  revert env. induction pre as [|line pre IH]; intros env; [done|].
  simpl. destruct (parse_line line) as [[key val]|]; [|apply IH].
  destruct (setdefault key val env) as [e|env']; [done|apply IH].
Qed.

(** A second pass over the same lines changes nothing, and stops where
    the first one stopped. *)
Lemma merge_lines_again lines env :
  merge_lines lines (merge_lines lines env) = merge_lines lines env
  ∧ aborts lines (merge_lines lines env) = aborts lines env.
Proof.
  revert env. induction lines as [|line rest IH]; intros env; [done|].
  simpl. destruct (parse_line line) as [[key val]|] eqn:Hp; [|apply IH].
  destruct (setdefault key val env) as [e|env'] eqn:Hs.
  - by rewrite Hs.
  - destruct (setdefault_lookup _ _ _ _ Hs) as [v Hv].
    pose proof (merge_lines_subseteq rest env') as Hsub.
    rewrite (setdefault_present key val (merge_lines rest env') v).
    + apply IH.
    + by eapply lookup_weaken.
Qed.

(** *** Stripping and splitting *)

Lemma append_nil (t : string) : "" +:+ t = t.
Proof. reflexivity. Qed.

Lemma append_cons a (s t : string) : String a s +:+ t = String a (s +:+ t).
Proof. reflexivity. Qed.

Lemma app_empty_r (a : string) : a +:+ "" = a.
Proof. induction a as [|d a IH]; [done|]. by rewrite append_cons, IH. Qed.

Lemma app_assoc_string (a b c : string) : (a +:+ b) +:+ c = a +:+ (b +:+ c).
Proof. induction a as [|d a IH]; [done|]. by rewrite !append_cons, IH. Qed.

Lemma is_empty_app a b : is_empty (a +:+ b) = is_empty a && is_empty b.
Proof. by destruct a. Qed.

Lemma lstrip_is_lstrip_by s : lstrip s = lstrip_by isspace_char s.
Proof. induction s as [|a s IH]; simpl; [done|]. by rewrite IH. Qed.

Lemma rstrip_is_rstrip_by s : rstrip s = rstrip_by isspace_char s.
Proof. induction s as [|a s IH]; simpl; [done|]. by rewrite IH. Qed.

Lemma strip_is_strip_by s : strip s = strip_by isspace_char s.
Proof. unfold strip, strip_by. by rewrite rstrip_is_rstrip_by, lstrip_is_lstrip_by. Qed.

Section StripBy.
Variable p : ascii → bool.

Lemma lstrip_by_pad pad s :
  all_chars p pad = true → lstrip_by p (pad +:+ s) = lstrip_by p s.
Proof.
  induction pad as [|a pad IH]; [done|]. rewrite append_cons. simpl.
  intros [-> Hpad]%andb_true_iff. by apply IH.
Qed.

Lemma lstrip_by_fix s : head_by p s = false → lstrip_by p s = s.
Proof. destruct s as [|a s]; simpl; [done|]. by intros ->. Qed.

Lemma rstrip_by_all pad : all_chars p pad = true → rstrip_by p pad = "".
Proof.
  induction pad as [|a pad IH]; simpl; [done|].
  intros [-> Hpad]%andb_true_iff. by rewrite IH.
Qed.

Lemma rstrip_by_pad s pad :
  all_chars p pad = true → rstrip_by p (s +:+ pad) = rstrip_by p s.
Proof.
  intros Hpad. induction s as [|a s IH]; [by apply rstrip_by_all|].
  rewrite append_cons. simpl. by rewrite IH.
Qed.

Lemma rstrip_by_fix s : last_by p s = false → rstrip_by p s = s.
Proof.
  induction s as [|a s IH]; simpl; [done|].
  destruct s as [|b s'].
  - simpl. by intros ->.
  - intros Hl. change (is_empty (String b s')) with false in Hl.
    rewrite (IH Hl). simpl. by rewrite andb_false_r.
Qed.

Lemma last_by_app_cons s a t :
  last_by p (s +:+ String a t) = last_by p (String a t).
Proof.
  induction s as [|b s IH]; [done|].
  assert (is_empty (s +:+ String a t) = false) as He by (by destruct s).
  rewrite append_cons.
  change (last_by p (String b (s +:+ String a t)))
    with (if is_empty (s +:+ String a t) then p b
          else last_by p (s +:+ String a t)).
  by rewrite He.
Qed.

Lemma last_by_snoc s a : last_by p (s +:+ String a "") = p a.
Proof. by rewrite last_by_app_cons. Qed.

(** Padding on both sides of a clean string strips off. *)
Lemma strip_by_pad pad1 s pad2 :
  all_chars p pad1 = true → all_chars p pad2 = true →
  head_by p s = false → last_by p s = false →
  strip_by p (pad1 +:+ s +:+ pad2) = s.
Proof.
  intros H1 H2 Hh Hl. unfold strip_by. rewrite lstrip_by_pad by done.
  destruct s as [|a s].
  - rewrite append_nil, <- (app_empty_r pad2), lstrip_by_pad by done. done.
  - rewrite lstrip_by_fix by done. rewrite rstrip_by_pad by done.
    by apply rstrip_by_fix.
Qed.

Lemma strip_by_fix_both s :
  head_by p s = false → last_by p s = false → strip_by p s = s.
Proof. intros Hh Hl. unfold strip_by. rewrite lstrip_by_fix by done. by apply rstrip_by_fix. Qed.

Lemma rstrip_by_after a b :
  last_by p a = false → rstrip_by p (a +:+ b) = a +:+ rstrip_by p b.
Proof.
  induction a as [|c a IH]; [done|].
  intros Hl. rewrite !append_cons. cbn [rstrip_by]. destruct a as [|d a'].
  - simpl in Hl. rewrite Hl. done.
  - change (is_empty (String d a')) with false in Hl. cbn [last_by] in Hl.
    rewrite (IH Hl), append_cons. simpl. by rewrite andb_false_r.
Qed.
End StripBy.

Lemma split_once_app c a b :
  contains_char c a = false → split_once c (a +:+ String c b) = (a, b).
Proof.
  induction a as [|d a IH]; [simpl; by rewrite Ascii.eqb_refl|].
  rewrite append_cons. simpl.
  intros [Hd Ha]%orb_false_iff. by rewrite Hd, (IH Ha).
Qed.

Lemma contains_char_app c a b :
  contains_char c (a +:+ b) = contains_char c a || contains_char c b.
Proof.
  induction a as [|d a IH]; [done|]. rewrite append_cons. simpl.
  by rewrite IH, orb_assoc.
Qed.

Lemma space_is_not_equals pad :
  all_chars isspace_char pad = true → contains_char "=" pad = false.
Proof.
  induction pad as [|a pad IH]; simpl; [done|].
  intros [Ha Hpad]%andb_true_iff. rewrite (IH Hpad), orb_false_r.
  by destruct (Ascii.eqb_spec a "="%char) as [->|].
Qed.

Lemma head_by_app p (k x : string) :
  is_empty k = false → head_by p (k +:+ x) = head_by p k.
Proof. by destruct k. Qed.

Lemma startswith_char_app c (k x : string) :
  is_empty k = false → startswith_char c (k +:+ x) = startswith_char c k.
Proof. by destruct k. Qed.

(** A line [key = body], padded with whitespace anywhere, assigns the
    body without its quotes to the key. *)
Lemma parse_line_padded p1 k p2 p3 body p4 :
  all_chars isspace_char p1 = true → all_chars isspace_char p2 = true →
  all_chars isspace_char p3 = true → all_chars isspace_char p4 = true →
  plain_key k = true →
  head_by isspace_char body = false → last_by isspace_char body = false →
  parse_line (p1 +:+ k +:+ p2 +:+ "=" +:+ p3 +:+ body +:+ p4)
  = Some (k, strip_char single_quote (strip_char double_quote body)).
Proof.
  intros H1 H2 H3 H4 Hk Hbh Hbl. unfold plain_key in Hk.
  apply andb_true_iff in Hk as [Hk Hhash%negb_true_iff].
  apply andb_true_iff in Hk as [Hk Hkl%negb_true_iff].
  apply andb_true_iff in Hk as [Hk Hkh%negb_true_iff].
  apply andb_true_iff in Hk as [Hne%negb_true_iff Heq%negb_true_iff].
  set (R := rstrip_by isspace_char (p3 +:+ body +:+ p4)).
  assert (strip (p1 +:+ k +:+ p2 +:+ "=" +:+ p3 +:+ body +:+ p4)
          = (k +:+ p2) +:+ String "=" R) as Hline.
  { rewrite strip_is_strip_by. unfold strip_by.
    rewrite lstrip_by_pad by done.
    rewrite lstrip_by_fix by (by rewrite head_by_app).
    replace (k +:+ p2 +:+ "=" +:+ p3 +:+ body +:+ p4)
      with (((k +:+ p2) +:+ "=") +:+ (p3 +:+ body +:+ p4))
      by (by rewrite !app_assoc_string).
    rewrite rstrip_by_after by (by rewrite last_by_snoc).
    by rewrite app_assoc_string. }
  assert (strip R = body) as HR.
  { subst R. rewrite strip_is_strip_by.
    replace (p3 +:+ body +:+ p4) with ((p3 +:+ body) +:+ p4)
      by (by rewrite app_assoc_string).
    rewrite rstrip_by_pad by done. destruct body as [|a t].
    - by rewrite app_empty_r, rstrip_by_all.
    - rewrite rstrip_by_fix by (by rewrite last_by_app_cons).
      rewrite <- (app_empty_r (String a t)) at 1.
      by apply strip_by_pad. }
  assert (strip (k +:+ p2) = k) as HK.
  { rewrite strip_is_strip_by. by apply (strip_by_pad _ "" k p2). }
  unfold parse_line. rewrite Hline.
  rewrite !is_empty_app, Hne. cbn [andb orb].
  rewrite app_assoc_string, startswith_char_app, Hhash by done. cbn [orb].
  rewrite !contains_char_app. cbn [contains_char]. rewrite Ascii.eqb_refl.
  rewrite !orb_true_r. cbn [negb].
  rewrite <- app_assoc_string, split_once_app.
  - by rewrite HK, HR.
  - by rewrite contains_char_app, Heq, space_is_not_equals.
Qed.

Lemma plain_value_by v :
  plain_value v = true →
  head_by isspace_char v = false ∧ last_by isspace_char v = false
  ∧ head_by (λ a, Ascii.eqb a double_quote) v = false
  ∧ last_by (λ a, Ascii.eqb a double_quote) v = false
  ∧ head_by (λ a, Ascii.eqb a single_quote) v = false
  ∧ last_by (λ a, Ascii.eqb a single_quote) v = false.
Proof.
  unfold plain_value. intros [Hh%negb_true_iff Hl%negb_true_iff]%andb_true_iff.
  assert (∀ s, last_by space_or_quote s = false →
    last_by isspace_char s = false
    ∧ last_by (λ a, Ascii.eqb a double_quote) s = false
    ∧ last_by (λ a, Ascii.eqb a single_quote) s = false) as Hlast.
  { induction s as [|a s IHs]; [done|]. cbn [last_by].
    destruct (is_empty s); [|done]. unfold space_or_quote.
    intros [[-> ->]%orb_false_iff ->]%orb_false_iff. done. }
  destruct (Hlast v Hl) as (? & ? & ?).
  destruct v as [|a v]; [done|]. unfold space_or_quote in Hh. simpl in Hh.
  apply orb_false_iff in Hh as [[? ?]%orb_false_iff ?]. simpl. done.
Qed.

Lemma merge_lines_skip pre rest env :
  (∀ line, line ∈ pre → parse_line line = None) →
  merge_lines (pre ++ rest) env = merge_lines rest env.
Proof.
  induction pre as [|l pre IH]; intros Hpre; [done|].
  simpl. rewrite (Hpre l) by left. apply IH. intros line Hl. apply Hpre. by right.
Qed.

(** X1.  The fallback only ever adds variables: whatever the process
    environment holds it still holds afterwards, with the same value, and
    every variable of the result is one the environment held or one a
    line of the file assigns. *)
Theorem dotenv_fallback_only_adds (file : option (list string)) (env : environ) :
  (∀ k v, env !! k = Some v → dotenv_fallback file env !! k = Some v)
  ∧ (∀ k v,
       dotenv_fallback file env !! k = Some v →
       env !! k = Some v
       ∨ ∃ lines line,
           file = Some lines ∧ line ∈ lines ∧ parse_line line = Some (k, v)).
Proof.
  destruct file as [lines|]; simpl.
  - split.
    + intros k v Hk. by eapply lookup_weaken, merge_lines_subseteq.
    + intros k v [?|(line & ? & ?)]%merge_lines_origin; [by left|].
      right. by exists lines, line.
  - split; [done|]. intros k v ?. by left.
Qed.

Lemma dotenv_fallback_only_adds_witness :
  dotenv_fallback (Some sample_env_file) sample_process_env !! "APP_ID" = Some "99"
  ∧ (sample_process_env !! "DISCORD_TOKEN" = Some "from-file"
     ∨ ∃ lines line,
         Some sample_env_file = Some lines ∧ line ∈ lines
         ∧ parse_line line = Some ("DISCORD_TOKEN", "from-file")).
Proof.
  split.
  - exact (proj1 (dotenv_fallback_only_adds (Some sample_env_file) sample_process_env)
             "APP_ID" "99" eq_refl).
  - exact (proj2 (dotenv_fallback_only_adds (Some sample_env_file) sample_process_env)
             "DISCORD_TOKEN" "from-file" eq_refl).
Defined.

(** X2.  What is written is what is read: a line [key=value], with the
    value bare, in double quotes or in single quotes, and with whitespace
    before, after and around the [=], assigns exactly [value] to [key]. *)
Theorem parse_line_round_trip (p1 k p2 p3 v p4 : string) :
  all_chars isspace_char p1 = true →
  all_chars isspace_char p2 = true →
  all_chars isspace_char p3 = true →
  all_chars isspace_char p4 = true →
  plain_key k = true →
  plain_value v = true →
  parse_line (p1 +:+ k +:+ p2 +:+ "=" +:+ p3 +:+ v +:+ p4) = Some (k, v)
  ∧ parse_line (p1 +:+ k +:+ p2 +:+ "=" +:+ p3 +:+ quoted double_quote v +:+ p4)
    = Some (k, v)
  ∧ parse_line (p1 +:+ k +:+ p2 +:+ "=" +:+ p3 +:+ quoted single_quote v +:+ p4)
    = Some (k, v).
Proof.
  intros H1 H2 H3 H4 Hk (Hsh & Hsl & Hdh & Hdl & Hqh & Hql)%plain_value_by.
  assert (∀ c, all_chars (λ a, Ascii.eqb a c) (String c "") = true) as Hone.
  { intros c. simpl. by rewrite Ascii.eqb_refl. }
  split_and!.
  - rewrite parse_line_padded by done. unfold strip_char.
    rewrite <- (app_empty_r v) at 1.
    rewrite (strip_by_pad _ "" v "") by done.
    rewrite <- (app_empty_r v) at 1. by rewrite (strip_by_pad _ "" v "").
  - rewrite parse_line_padded; [|done..| |].
    + unfold strip_char, quoted.
      change (String double_quote (v +:+ String double_quote ""))
        with (String double_quote "" +:+ v +:+ String double_quote "").
      rewrite strip_by_pad by auto.
      rewrite <- (app_empty_r v) at 1. by rewrite (strip_by_pad _ "" v "").
    + done.
    + unfold quoted. rewrite <- append_cons.
      by rewrite (last_by_app_cons _ (String double_quote v)).
  - rewrite parse_line_padded; [|done..| |].
    + unfold strip_char, quoted.
      rewrite (strip_by_fix_both (λ a, Ascii.eqb a double_quote)).
      * change (String single_quote (v +:+ String single_quote ""))
          with (String single_quote "" +:+ v +:+ String single_quote "").
        by rewrite strip_by_pad by auto.
      * done.
      * rewrite <- append_cons.
        by rewrite (last_by_app_cons _ (String single_quote v)).
    + done.
    + unfold quoted. rewrite <- append_cons.
      by rewrite (last_by_app_cons _ (String single_quote v)).
Qed.

Lemma parse_line_round_trip_witness :
  parse_line ("  " +:+ "OWNER_ID" +:+ " " +:+ "=" +:+ " " +:+ "1234" +:+ " ")
    = Some ("OWNER_ID", "1234")
  ∧ parse_line ("" +:+ "TOKEN" +:+ "" +:+ "=" +:+ ""
                +:+ quoted single_quote "abc 123" +:+ "")
    = Some ("TOKEN", "abc 123").
Proof.
  split.
  - exact (proj1 (parse_line_round_trip "  " "OWNER_ID" " " " " "1234" " "
             eq_refl eq_refl eq_refl eq_refl eq_refl eq_refl)).
  - exact (proj2 (proj2 (parse_line_round_trip "" "TOKEN" "" "" "abc 123" ""
             eq_refl eq_refl eq_refl eq_refl eq_refl eq_refl))).
Defined.

(** X3.  Blank lines, comment lines and lines without [=] do not count:
    wherever such a line stands in the file, the merged environment is
    the one the file gives without it. *)
Theorem merge_lines_ignores_other_lines
    (pre rest : list string) (line : string) (env : environ) :
  is_empty (strip line) = true
  ∨ startswith_char "#" (strip line) = true
  ∨ contains_char "=" (strip line) = false →
  merge_lines (pre ++ line :: rest) env = merge_lines (pre ++ rest) env.
Proof.
  intros Hline.
  assert (parse_line line = None) as Hp.
  { unfold parse_line. destruct Hline as [-> | [-> | ->]]; [done| |].
    - by rewrite orb_true_r.
    - by rewrite !orb_true_r. }
  rewrite !merge_lines_app. destruct (aborts pre env); [done|].
  simpl. by rewrite Hp.
Qed.

Lemma merge_lines_ignores_other_lines_witness :
  merge_lines (["APP_ID=42"] ++ "  # OWNER_ID=1" :: ["OWNER_ID=7"]) ∅
  = merge_lines (["APP_ID=42"] ++ ["OWNER_ID=7"]) ∅.
Proof.
  apply (merge_lines_ignores_other_lines ["APP_ID=42"] ["OWNER_ID=7"] "  # OWNER_ID=1" ∅).
  right. left. reflexivity.
Defined.

(** X4.  Reading the same file a second time changes nothing. *)
Theorem dotenv_fallback_idempotent (file : option (list string)) (env : environ) :
  dotenv_fallback file (dotenv_fallback file env) = dotenv_fallback file env.
Proof.
  destruct file as [lines|]; [|done]. simpl. apply merge_lines_again.
Qed.

(** X5.  An assignment the platform refuses (an empty name, or a NUL in
    the name or the value, for a name not yet set) ends the reading: the
    lines after it are never applied, the ones before it stay applied. *)
Theorem failing_assignment_ends_the_merge
    (pre rest : list string) (line key val : string) (env : environ) :
  parse_line line = Some (key, val) →
  merge_lines pre env !! key = None →
  is_empty key || contains_char NUL key || contains_char NUL val = true →
  merge_lines (pre ++ line :: rest) env = merge_lines pre env.
Proof.
  intros Hp Hk Hbad. rewrite merge_lines_app.
  destruct (aborts pre env); [done|]. simpl. rewrite Hp.
  unfold setdefault. rewrite Hk.
  destruct (contains_char NUL key || contains_char NUL val) eqn:Hnul; [done|].
  destruct (contains_char "=" key); [done|].
  rewrite <- orb_assoc, Hnul, orb_false_r in Hbad. by rewrite Hbad.
Qed.

Lemma failing_assignment_ends_the_merge_witness :
  merge_lines (["APP_ID=42"] ++ "=broken" :: ["OWNER_ID=7"; "TOKEN=abc"]) ∅
  = merge_lines ["APP_ID=42"] ∅.
Proof.
  exact (failing_assignment_ends_the_merge ["APP_ID=42"] ["OWNER_ID=7"; "TOKEN=abc"]
           "=broken" "" "broken" ∅ eq_refl eq_refl eq_refl).
Defined.

(** X6.  The file cannot change a variable of the process environment,
    but it can change a field.  Take any line of the file that the
    reading gets past (no assignment up to and including it is refused)
    and that is the first to set its variable: neither the environment
    nor an earlier line sets it.  If the value is not blank, every field
    that has this variable as its first alias resolves to the file's
    value, whatever the environment and the rest of the file hold for the
    later aliases. *)
Theorem env_file_alias_outranks_process_alias
    (pre rest : list string) (line k f : string) (keys : list string)
    (default : option string) (env : environ) :
  aborts (pre ++ [line]) env = false →
  merge_lines pre env !! k = None →
  parse_line line = Some (k, f) →
  is_empty (strip f) = false →
  getenv_any (merge_lines (pre ++ line :: rest) env) (k :: keys) default
  = Some (strip f).
Proof.
  intros Hab Hk Hp Hf.
  rewrite aborts_app in Hab. apply orb_false_iff in Hab as [Hpre Hline].
  simpl in Hline. rewrite Hp in Hline.
  assert (merge_lines (pre ++ line :: rest) env !! k = Some f) as Hlook.
  { rewrite merge_lines_app, Hpre. simpl. rewrite Hp.
    destruct (setdefault k f (merge_lines pre env)) as [e|env'] eqn:Hs; [done|].
    eapply lookup_weaken; [|apply merge_lines_subseteq].
    apply setdefault_inr in Hs as [[_ [v Hv]]|[-> _]]; [congruence|].
    by rewrite lookup_insert_eq. }
  rewrite getenv_any_cons. unfold is_set. rewrite Hlook, eqb_empty, Hf. done.
Qed.

Lemma env_file_alias_outranks_process_alias_witness :
  getenv_any (merge_lines (["# bot settings"; "APP_ID=42"; "OWNER_ID = 7"]
                ++ "DISCORD_TOKEN = 'from-file'" :: ["TOKEN=later"])
                sample_process_env)
             ("DISCORD_TOKEN" :: ["TOKEN"; "BOT_TOKEN"]) (Some "")
  = Some (strip "from-file")
  ∧ sample_process_env !! "TOKEN" = Some "from-process".
Proof.
  split; [|reflexivity].
  exact (env_file_alias_outranks_process_alias
           ["# bot settings"; "APP_ID=42"; "OWNER_ID = 7"] ["TOKEN=later"]
           "DISCORD_TOKEN = 'from-file'" "DISCORD_TOKEN" "from-file"
           ["TOKEN"; "BOT_TOKEN"] (Some "") sample_process_env
           eq_refl eq_refl eq_refl eq_refl).
Defined.
End EnvFileFacts.

(* ===================================================================== *)
(** ** More on the configuration loader *)
(* ===================================================================== *)

Module LoaderFacts.
Import Py Config Views Samples PyFacts ConfigFacts.

(** X7.  Once the four integer conversions have gone through, the loader
    has printed the audio-node password in clear, on one line, and this
    before it validates anything: the line is there even when the run
    ends in the missing-token error. *)
Theorem load_config_prints_the_password (env : environ) :
  convertible (resolved env app_id_keys) = true →
  convertible (resolved env owner_id_keys) = true →
  convertible (resolved env guild_id_keys) = true →
  convertible (resolved env ["LAVALINK_PORT"]) = true →
  (load_config env).1 =
    ["Debug: Lavalink password loaded: "
     +:+ default "youshallnotpass" (resolved env ["LAVALINK_PASSWORD"])]
  ∧ (resolved env token_keys = None →
     (load_config env).2 = inl (ValueError
       "DISCORD_TOKEN is required but not found in environment variables or .env file")).
Proof.
  intros Ha Ho Hg Hp. rewrite (load_config_convertible env Ha Ho Hg Hp). cbn [fst snd].
  split; [done|]. by intros ->.
Qed.

Lemma load_config_prints_the_password_witness :
  (load_config env_zero_app_id).1 = ["Debug: Lavalink password loaded: youshallnotpass"]
  ∧ (load_config (<["LAVALINK_PASSWORD" := "s3cret"]> ∅)).2 = inl (ValueError
       "DISCORD_TOKEN is required but not found in environment variables or .env file").
Proof.
  split.
  - exact (proj1 (load_config_prints_the_password env_zero_app_id
                    eq_refl eq_refl eq_refl eq_refl)).
  - exact (proj2 (load_config_prints_the_password (<["LAVALINK_PASSWORD" := "s3cret"]> ∅)
                    eq_refl eq_refl eq_refl eq_refl) eq_refl).
Defined.

Lemma getenv_any_delete_other env keys default k :
  k ∉ keys →
  getenv_any (delete k env) keys default = getenv_any env keys default.
Proof.
  induction keys as [|k' keys IH]; intros Hk; [done|].
  apply not_elem_of_cons in Hk as [Hne Hk].
  simpl. rewrite lookup_delete_ne by done. by rewrite IH.
Qed.

(** X8.  A port that is not a digit string is as good as none: the loader
    neither fails on it nor keeps any of it, it behaves exactly as with
    [LAVALINK_PORT] unset (port 2333). *)
Theorem non_numeric_port_is_unset (env : environ) (v : string) :
  env !! "LAVALINK_PORT" = Some v →
  isdigit (strip v) = false →
  load_config env = load_config (delete "LAVALINK_PORT" env).
Proof.
  intros Hv Hd.
  assert (int_if_digit
            (or_default (getenv_any env ["LAVALINK_PORT"] (Some "2333")) "2333") 2333
          = int_if_digit
              (or_default (getenv_any (delete "LAVALINK_PORT" env) ["LAVALINK_PORT"]
                             (Some "2333")) "2333") 2333) as Hport.
  { simpl. rewrite lookup_delete_eq, Hv.
    destruct (String.eqb (strip v) "") eqn:He; simpl; [done|].
    rewrite eqb_empty in He. unfold truthy. rewrite He. simpl.
    unfold int_if_digit at 1. by rewrite Hd. }
  unfold load_config. rewrite Hport.
  generalize (int_if_digit
    (or_default (getenv_any (delete "LAVALINK_PORT" env) ["LAVALINK_PORT"]
                   (Some "2333")) "2333") 2333).
  intros port.
  by rewrite !(getenv_any_delete_other env _ _ "LAVALINK_PORT")
    by (by apply (bool_decide_unpack _); vm_compute).
Qed.

Lemma non_numeric_port_is_unset_witness :
  load_config (<["LAVALINK_PORT" := "23e3"]> env_complete)
  = load_config (delete "LAVALINK_PORT" (<["LAVALINK_PORT" := "23e3"]> env_complete)).
Proof.
  exact (non_numeric_port_is_unset (<["LAVALINK_PORT" := "23e3"]> env_complete) "23e3"
           eq_refl eq_refl).
Defined.

Lemma load_config_inr_guild env cfg :
  (load_config env).2 = inr cfg →
  (int_if_truthy_digit (resolved env guild_id_keys)).2 = inr (guild_id cfg).
Proof.
  unfold load_config. cbv zeta. rewrite !or_default_resolved.
  rewrite (getenv_any_default env ["SYNC_GLOBAL"]).
  fold (resolved env guild_id_keys).
  io_next H1; [done|]. io_next H2; [done|]. io_next H3; [done|].
  io_next H4; [done|]. io_next H5; [done|]. io_next H6; [done|].
  repeat case_match; simpl; intros; simplify_eq; done.
Qed.

Lemma resolved_first env k keys v :
  env !! k = Some v → is_empty (strip v) = false →
  resolved env (k :: keys) = Some (strip v).
Proof.
  intros Hk Hv. unfold resolved. rewrite getenv_any_cons. unfold is_set.
  by rewrite Hk, eqb_empty, Hv.
Qed.

(** X9.  The first alias that is set decides even when it is useless: an
    [APP_ID] or [OWNER_ID] that is not a digit string makes the loader
    fail, and a [GUILD_ID] that is not one leaves the guild unset,
    whatever number the later aliases of the field hold. *)
Theorem first_alias_decides_even_if_not_numeric (env : environ) (v : string) :
  is_empty (strip v) = false →
  isdigit (strip v) = false →
  (env !! "APP_ID" = Some v ∨ env !! "OWNER_ID" = Some v →
   ∃ msg, (load_config env).2 = inl (ValueError msg))
  ∧ (env !! "GUILD_ID" = Some v →
     ∀ cfg, (load_config env).2 = inr cfg → guild_id cfg = None).
Proof.
  intros Hne Hd. split.
  - intros Hset. destruct (load_config env).2 as [e|cfg] eqn:Hres.
    + destruct (load_config_exn _ _ Hres) as [msg ->]. eauto.
    + exfalso. apply load_config_inr in Hres as (_ & _ & Ha & Haz & Ho & Hoz).
      destruct Hset as [Hv|Hv].
      * unfold app_id_keys in Ha. rewrite (resolved_first _ _ _ _ Hv Hne) in Ha.
        simpl in Ha. unfold int_if_digit in Ha. rewrite Hd in Ha.
        simpl in Ha. congruence.
      * unfold owner_id_keys in Ho. rewrite (resolved_first _ _ _ _ Hv Hne) in Ho.
        simpl in Ho. unfold int_if_digit in Ho. rewrite Hd in Ho.
        simpl in Ho. congruence.
  - intros Hv cfg Hres%load_config_inr_guild.
    unfold guild_id_keys in Hres. rewrite (resolved_first _ _ _ _ Hv Hne) in Hres.
    unfold int_if_truthy_digit in Hres. rewrite Hd, andb_false_r in Hres.
    simpl in Hres. congruence.
Qed.

Lemma first_alias_decides_even_if_not_numeric_witness :
  (∃ msg, (load_config (<["APP_ID" := "forty-two"]> env_complete)).2
          = inl (ValueError msg))
  ∧ ∀ cfg, (load_config (<["GUILD_ID" := "my guild"]> env_complete)).2 = inr cfg →
           guild_id cfg = None.
Proof.
  split.
  - exact (proj1 (first_alias_decides_even_if_not_numeric
             (<["APP_ID" := "forty-two"]> env_complete) "forty-two" eq_refl eq_refl)
             (or_introl eq_refl)).
  - exact (proj2 (first_alias_decides_even_if_not_numeric
             (<["GUILD_ID" := "my guild"]> env_complete) "my guild" eq_refl eq_refl)
             eq_refl).
Defined.

End LoaderFacts.

(* ===================================================================== *)
(** ** Start-up, shutdown, track start, auto-play, main *)
(* ===================================================================== *)

Module LifecycleFacts.
Import Py Config Client Views Samples Lifecycle LifecycleViews.

Lemma deeds_app l1 l2 : deeds (l1 ++ l2) = deeds l1 ++ deeds l2.
Proof. unfold deeds. apply List.filter_app. Qed.

Lemma and_then_done x k :
  x.2 = Done → and_then x k = (x.1 ++ k.1, k.2).
Proof. destruct x as [ops []]; simpl; [done|discriminate]. Qed.

(** A guarded call that is answered benignly is made once and lets the
    coroutine go on. *)
Lemma guarded_benign {A} call (a : answer A) ok ko :
  benign a = true →
  is_log call = false →
  (∀ x, deeds (ok x) = []) → (∀ e, deeds (ko e) = []) →
  (guarded call a ok ko).2 = Done ∧ deeds (guarded call a ok ko).1 = [call].
Proof.
  intros Ha Hc Hok Hko. destruct a as [x|[| |e]]; try done; simpl.
  - unfold deeds in *. simpl. rewrite Hc. simpl. by rewrite Hok.
  - unfold deeds in *. simpl. rewrite Hc. simpl. by rewrite Hko.
Qed.

Lemma load_cogs_benign load cogs :
  (∀ cog, benign (load cog) = true) →
  (load_cogs load cogs).2 = Done
  ∧ deeds (load_cogs load cogs).1 = OLoadExtension <$> cogs.
Proof.
  intros Hload. induction cogs as [|cog rest [IH1 IH2]]; [done|].
  cbn [load_cogs].
  match goal with |- context [and_then ?g _] =>
    destruct (guarded_benign (OLoadExtension cog) (load cog)
      (λ _, [OLog INFO ("✅ Loaded cog: " +:+ cog)])
      (λ e, [OLog ERROR ("❌ Failed to load cog " +:+ cog +:+ ": " +:+ e)]))
      as [Hg1 Hg2]; [apply Hload|done..|] end.
  rewrite and_then_done by done. cbn [fst snd].
  split; [done|]. rewrite deeds_app, Hg2, IH2. done.
Qed.

(** X10.  Unless it is cancelled, [setup_hook] goes through all its
    steps whatever fails: one connection attempt to the audio nodes, then
    every extension of the list, each tried once and in order whether or
    not the ones before it loaded, then the health-check task. *)
Theorem setup_hook_tries_every_cog
    (b : Bot) (connect : answer unit) (load : string → answer unit) :
  benign connect = true →
  (∀ cog, benign (load cog) = true) →
  (setup_hook b connect load).2 = Done
  ∧ deeds (setup_hook b connect load).1
    = OPoolConnect (wavelink_nodes (config b)) 100
      :: (OLoadExtension <$> cogs_to_load) ++ [OCreateHealthTask].
Proof.
  intros Hc Hl. unfold setup_hook.
  destruct (guarded_benign (OPoolConnect (wavelink_nodes (config b)) 100) connect
    (λ _, [OLog INFO "🎵 Wavelink nodes connected successfully"])
    (λ e, [OLog ERROR ("❌ Failed to connect Wavelink nodes: " +:+ e)]))
    as [Hg1 Hg2]; [done..|].
  destruct (load_cogs_benign load cogs_to_load Hl) as [Hl1 Hl2].
  rewrite (and_then_done (load_cogs load cogs_to_load)) by done.
  rewrite (and_then_done (guarded _ _ _ _)) by done.
  rewrite and_then_done by done. cbn [fst snd].
  split; [done|]. rewrite !deeds_app, Hg2, Hl2. done.
Qed.

Lemma setup_hook_tries_every_cog_witness :
  let load := λ cog, if String.eqb cog "cogs.music"
                     then Raises (Exc "No module named 'wavelink'")
                     else Returns tt in
  (setup_hook (Bot_new cfg_guild) (Raises (Exc "connection refused")) load).2 = Done
  ∧ deeds (setup_hook (Bot_new cfg_guild) (Raises (Exc "connection refused")) load).1
    = OPoolConnect (wavelink_nodes cfg_guild) 100
      :: (OLoadExtension <$> cogs_to_load) ++ [OCreateHealthTask].
Proof.
  apply (setup_hook_tries_every_cog (Bot_new cfg_guild)
           (Raises (Exc "connection refused"))); [reflexivity|].
  intros cog. by destruct (String.eqb cog "cogs.music").
Defined.

Lemma disconnect_player_benign g :
  benign_guild g = true →
  (disconnect_player g).2 = Done ∧ deeds (disconnect_player g).1 = guild_deeds g.
Proof.
  unfold benign_guild, disconnect_player, guild_deeds.
  destruct (g_player g) as [[| |e]| |[x|[| |e]]]; try done.
Qed.

Lemma disconnect_players_benign guilds :
  forallb benign_guild guilds = true →
  (disconnect_players guilds).2 = Done
  ∧ deeds (disconnect_players guilds).1 = guilds ≫= guild_deeds.
Proof.
  induction guilds as [|g rest IH]; [done|].
  simpl forallb. intros [Hg Hrest]%andb_true_iff.
  destruct (IH Hrest) as [IH1 IH2].
  destruct (disconnect_player_benign g Hg) as [Hg1 Hg2].
  cbn [disconnect_players]. rewrite and_then_done by done. cbn [fst snd].
  split; [done|]. by rewrite deeds_app, Hg2, IH2.
Qed.

(** X11.  Unless it is cancelled, [close] carries out every step of the
    shutdown whatever fails on the way: it cancels the health check and
    the startup task it knows of, asks every guild for its player and
    disconnects each player found, closes the pool, and hands over to the
    platform's own close. *)
Theorem close_runs_every_step
    (b : Bot) (has_health_task : bool) (guilds : list Guild)
    (pool_close : answer unit) :
  forallb benign_guild guilds = true →
  benign pool_close = true →
  (close b has_health_task guilds pool_close (Returns tt)).2 = Done
  ∧ deeds (close b has_health_task guilds pool_close (Returns tt)).1
    = (if has_health_task then [OCancelHealthTask] else [])
      ++ match _owner_dm_task b with
         | Some t => [OCancelOwnerDmTask t]
         | None => []
         end
      ++ (guilds ≫= guild_deeds)
      ++ [OPoolClose; OSuperClose].
Proof.
  intros Hg Hp. unfold close.
  destruct (disconnect_players_benign guilds Hg) as [Hd1 Hd2].
  destruct (guarded_benign OPoolClose pool_close
    (λ _, [OLog INFO "🎵 Wavelink pool closed"])
    (λ e, [OLog WARNING ("🎵 Error closing Wavelink pool: " +:+ e)]))
    as [Hg1 Hg2]; [done..|].
  rewrite (and_then_done (guarded _ _ _ _)) by done.
  rewrite (and_then_done (disconnect_players guilds)) by done.
  rewrite and_then_done by done. cbn [fst snd].
  split; [done|]. rewrite !deeds_app, Hd2, Hg2.
  destruct has_health_task, (_owner_dm_task b); by rewrite <- ?app_assoc.
Qed.

Lemma close_runs_every_step_witness :
  (close (Bot_new cfg_guild) true sample_guilds (Raises (Exc "pool gone")) (Returns tt)).2
  = Done
  ∧ deeds (close (Bot_new cfg_guild) true sample_guilds (Raises (Exc "pool gone"))
             (Returns tt)).1
    = [OCancelHealthTask; OGetPlayer 1; OGetPlayer 2; OPlayerDisconnect 2 true;
       OGetPlayer 3; OGetPlayer 4; OPlayerDisconnect 4 true; OPoolClose; OSuperClose].
Proof.
  exact (close_runs_every_step (Bot_new cfg_guild) true sample_guilds
           (Raises (Exc "pool gone")) eq_refl eq_refl).
Defined.
Lemma format_02d_width n : (0 ≤ n < 60)%Z → String.length (format_02d n) = 2.
Proof.
  intros Hn.
  assert (forallb (λ k, String.length (format_02d (Z.of_nat k)) =? 2) (seq 0 60) = true)
    as Hall by (vm_compute; reflexivity).
  rewrite forallb_forall in Hall. specialize (Hall (Z.to_nat n)).
  rewrite Z2Nat.id in Hall by lia. apply Nat.eqb_eq, Hall, in_seq. lia.
Qed.

(** X12.  The duration shown for a track is its length in whole minutes,
    a colon, and the remaining seconds on exactly two characters: the
    seconds lie between 0 and 59 and, with the minutes, add up to the
    whole seconds of the length (there is no hours part, an hour shows as
    60 minutes). *)
Theorem duration_minutes_and_seconds (length : Z) :
  let m := (length / 60000)%Z in
  let s := ((length / 1000) mod 60)%Z in
  duration length = str_of_int m +:+ ":" +:+ format_02d s
  ∧ String.length (format_02d s) = 2
  ∧ (0 ≤ s < 60)%Z
  ∧ (60 * m + s = length / 1000)%Z.
Proof.
  intros m s.
  assert (0 ≤ s < 60)%Z as Hs by (apply Z.mod_pos_bound; lia).
  split_and!; [done|by apply format_02d_width|lia..|].
  subst m s. replace 60000%Z with (1000 * 60)%Z by lia.
  rewrite <- Z.div_div by lia.
  pose proof (Z.div_mod (length / 1000) 60). lia.
Qed.

Lemma duration_minutes_and_seconds_witness :
  duration 225500 = "3:45" ∧ (60 * 3 + 45 = 225500 / 1000)%Z.
Proof.
  destruct (duration_minutes_and_seconds 225500) as (Hd & _ & _ & Hsum).
  split; [exact Hd|exact Hsum].
Defined.

(** X13.  The track-start handler sends at most one message and lets no
    [Exception] out.  It sends none when the player has no text channel,
    and none either when the player's [channel] attribute holds [None]:
    reading the channel's name for the footer fails before the send.  In
    every other case the one message is the now-playing embed. *)
Theorem track_start_sends_at_most_once
    (player : Player) (track : Track) (send : answer unit) :
  let r := on_wavelink_track_start player track send in
  (benign send = true → r.2 = Done)
  ∧ length (List.filter is_send r.1) ≤ 1
  ∧ (has_text_channel player = false ∨ channel player = ChannelIsNone →
     List.filter is_send r.1 = [] ∧ r.2 = Done)
  ∧ (has_text_channel player = true → channel player ≠ ChannelIsNone →
     ∃ where_, List.filter is_send r.1
               = [OTextChannelSend (now_playing track where_)]).
Proof.
  unfold on_wavelink_track_start.
  destruct (has_text_channel player), (channel player) as [| |name],
    send as [[]|[| |e]]; simpl; split_and!; try done; try lia; eauto;
    intros [|]; done.
Qed.

Lemma track_start_sends_at_most_once_witness :
  let r := on_wavelink_track_start
             {| has_text_channel := true; channel := ChannelIsNone |}
             sample_track (Returns tt) in
  List.filter is_send r.1 = [] ∧ r.2 = Done.
Proof.
  exact (proj1 (proj2 (proj2 (track_start_sends_at_most_once
           {| has_text_channel := true; channel := ChannelIsNone |}
           sample_track (Returns tt)))) (or_intror eq_refl)).
Defined.

Lemma try_channel_started guild c : started_last (try_channel guild c).
Proof.
  unfold try_channel, started_last.
  destruct (0 <? vc_members c); [|done].
  destruct (vc_connect c) as [[]|[| |e]]; try done.
  destruct (vc_search c) as [[|]|[| |e]]; try done.
  destruct (vc_play c) as [[]|[| |e]]; try done.
  simpl. by eexists [_; _; _], _.
Qed.

Lemma started_last_seq ops ops' e :
  started_last (ops, NextChannel) → started_last (ops', e) →
  started_last (ops ++ ops', e).
Proof.
  unfold started_last. simpl. intros Hx Hy.
  destruct e; rewrite ?List.filter_app, ?Hx; try done.
  destruct Hy as (pre & o & -> & Ho & Hpre).
  exists (ops ++ pre), o. rewrite app_assoc, List.filter_app, Hx, Hpre. done.
Qed.

Lemma try_channels_started guild cs : started_last (try_channels guild cs).
Proof.
  induction cs as [|c rest IH]; [done|]. cbn [try_channels].
  pose proof (try_channel_started guild c) as Hc.
  destruct (try_channel guild c) as [ops [| |t]]; [|done..].
  destruct (try_channels guild rest) as [ops' e].
  by apply started_last_seq.
Qed.

Lemma try_guilds_started gs : started_last (try_guilds gs).
Proof.
  induction gs as [|g rest IH]; [done|]. cbn [try_guilds].
  pose proof (try_channels_started (vg_name g) (voice_channels g)) as Hc.
  destruct (try_channels _ _) as [ops [| |t]]; [|done..].
  destruct (try_guilds rest) as [ops' e].
  by apply started_last_seq.
Qed.

(** X14.  Auto-play starts playback at most once, and the start is the
    last thing it does: whatever the guilds, their channels and the
    answers of the calls, nothing is connected, searched or played after
    the first track has started. *)
Theorem auto_play_stops_at_first_start (sleep : answer unit) (gs : list VoiceGuild) :
  let ops := (_attempt_auto_play sleep gs).1 in
  length (List.filter is_started ops) ≤ 1
  ∧ ∀ pre o post, ops = pre ++ o :: post → is_started o = true →
      post = [] ∧ (_attempt_auto_play sleep gs).2 = Done.
Proof.
  assert (∀ l, List.filter is_started l = [] →
          ∀ pre o post, l = pre ++ o :: post → is_started o = true → False) as Hnone.
  { intros l Hl pre o post -> Ho.
    rewrite List.filter_app in Hl. simpl in Hl. rewrite Ho in Hl.
    by destruct (List.filter is_started pre). }
  unfold _attempt_auto_play.
  destruct sleep as [[]|[| |e]].
  2-4: (split; [simpl; lia|]; intros pre o post Heq Ho; exfalso;
        eapply Hnone; [|exact Heq|exact Ho]; done).
  pose proof (try_guilds_started gs) as Hs. unfold started_last in Hs.
  destruct (try_guilds gs) as [ops x]. cbn [fst snd] in *.
  destruct x as [| |t]; cbn [fst snd].
  - split; [simpl; rewrite Hs; simpl; lia|].
    intros pre o post Heq Ho. exfalso.
    eapply Hnone; [|exact Heq|exact Ho]. simpl. by rewrite Hs.
  - destruct Hs as (pre0 & o0 & -> & Ho0 & Hpre0).
    split; [simpl; rewrite List.filter_app, Hpre0; simpl; rewrite Ho0; simpl; lia|].
    intros pre o post Heq Ho. split; [|done].
    destruct post as [|q post]; [done|exfalso].
    assert (OSleep 10 :: pre0 = pre ++ o :: removelast (q :: post)) as Hp.
    { apply (f_equal (@removelast op)) in Heq.
      rewrite app_comm_cons, removelast_last in Heq.
      rewrite removelast_app in Heq by done. exact Heq. }
    eapply Hnone; [|exact Hp|exact Ho]. simpl. by rewrite Hpre0.
  - split; [simpl; rewrite Hs; simpl; lia|].
    intros pre o post Heq Ho. exfalso.
    eapply Hnone; [|exact Heq|exact Ho]. simpl. by rewrite Hs.
Qed.

Lemma auto_play_stops_at_first_start_witness :
  (_attempt_auto_play (Returns tt) sample_voice_guilds).1
  = [OSleep 10; OChannelConnect "alpha" "lobby";
     OLog WARNING "🎵 Auto-play failed for alpha: missing permissions";
     OChannelConnect "beta" "music"; OSearch "lofi hip hop"; OPlay "beta" "music";
     OLog INFO "🎵 Auto-play started in beta - music"]
  ∧ (_attempt_auto_play (Returns tt) sample_voice_guilds).2 = Done.
Proof.
  split; [reflexivity|].
  exact (proj2 (proj2 (auto_play_stops_at_first_start (Returns tt) sample_voice_guilds)
           [OSleep 10; OChannelConnect "alpha" "lobby";
            OLog WARNING "🎵 Auto-play failed for alpha: missing permissions";
            OChannelConnect "beta" "music"; OSearch "lofi hip hop"; OPlay "beta" "music"]
           _ [] eq_refl eq_refl)).
Defined.
Lemma unprinted_app l1 l2 : unprinted (l1 ++ l2) = unprinted l1 ++ unprinted l2.
Proof. unfold unprinted. apply List.filter_app. Qed.

Lemma unprinted_cons o l :
  unprinted (o :: l) = (if is_print o then [] else [o]) ++ unprinted l.
Proof. unfold unprinted. simpl. by destruct (is_print o). Qed.

Lemma unprinted_prints out : unprinted (OPrint <$> out) = [].
Proof. by induction out. Qed.

Lemma Bot_init_eq env :
  Bot_init env = ((load_config env).1,
                  match (load_config env).2 with
                  | inl e => inl e
                  | inr cfg => inr (Bot_new cfg)
                  end).
Proof.
  unfold Bot_init, mbind, io_bind, mret, io_ret.
  destruct (load_config env) as [out [e|cfg]]; [done|]. simpl. by rewrite app_nil_r.
Qed.

(** X15.  When the configuration cannot be loaded the program never
    starts the client and never calls [close]: all it does is print what
    the loader printed and then the one line that names the failure. *)
Theorem config_error_never_starts
    (env : environ) (start : answer unit) (closed : bool)
    (closing : Bot → list op * completion) (e : exn) :
  (load_config env).2 = inl e →
  run_main env start closed closing
  = ((OPrint <$> (load_config env).1)
       ++ [OPrint ("❌ Failed to start bot: " +:+ exn_text e)], Done).
Proof.
  intros He. unfold run_main, main. rewrite Bot_init_eq, He. done.
Qed.

Lemma config_error_never_starts_witness :
  run_main env_token_only (Returns tt) false
    (λ b, close b true sample_guilds (Returns tt) (Returns tt))
  = ([OPrint "Debug: Lavalink password loaded: youshallnotpass";
      OPrint ("❌ Failed to start bot: APP_ID is required but not found "
              +:+ "in environment variables or .env file")], Done).
Proof.
  exact (config_error_never_starts env_token_only (Returns tt) false
           (λ b, close b true sample_guilds (Returns tt) (Returns tt))
           (ValueError ("APP_ID is required but not found "
                        +:+ "in environment variables or .env file")) eq_refl).
Defined.

(** X16.  Once the configuration is loaded, [main] starts the client
    exactly once, with the configured token, and however the start ends
    (a return, an interrupt, an error or a cancellation) it then calls
    [close] unless the client is already closed, and does nothing else
    but print.  When the close does not raise, the last line printed is
    the shutdown message, and only a cancellation leaves [main]. *)
Theorem main_closes_unless_closed
    (env : environ) (cfg : BotConfig) (start : answer unit) (closed : bool)
    (closing : Bot → list op * completion) :
  (load_config env).2 = inr cfg →
  let r := main env start closed closing in
  unprinted r.1
  = OStart (token cfg)
    :: (if closed then [] else unprinted (closing (Bot_new cfg)).1)
  ∧ (closed = true ∨ (closing (Bot_new cfg)).2 = Done →
     (∃ ops, r.1 = ops ++ [OPrint "✅ Bot shutdown completed"])
     ∧ r.2 = match start with
             | Raises Cancelled => Propagates Cancelled
             | _ => Done
             end).
Proof.
  intros Hc. unfold main. rewrite Bot_init_eq, Hc.
  generalize (load_config env).1. intros out. cbn [config Bot_new token].
  assert (∀ l, unprinted ((OPrint <$> out) ++ l) = unprinted l) as Hout.
  { intros l. by rewrite unprinted_app, unprinted_prints. }
  assert (∀ pre (o last : op), ∃ ops, pre ++ [o; last] = ops ++ [last]) as Hlast.
  { intros pre o last. exists (pre ++ [o]). by rewrite <- app_assoc. }
  destruct closed.
  - destruct start as [[]|[| |e]]; cbn -[unprinted];
      (split; [by rewrite !unprinted_app, unprinted_prints|]); intros _;
      (split; [|done]); first [by eexists|apply Hlast].
  - destruct (closing (Bot_new cfg)) as [cl [|t]];
      destruct start as [[]|[| |e]]; cbn -[unprinted];
      (split;
       [repeat (rewrite unprinted_app || rewrite unprinted_cons
                || rewrite unprinted_prints);
        cbn; by rewrite ?app_nil_r|]);
      (intros [|]; [done|]); try done;
      (split; [|done]);
      first [ by eexists
            | by rewrite app_assoc; eexists
            | by eexists (_ ++ _ :: _); rewrite <- app_assoc ].
Qed.

Lemma main_closes_unless_closed_witness :
  let closing := λ b, close b true sample_guilds (Returns tt) (Returns tt) in
  let r := main env_complete (Raises (Exc "Improper token has been passed.")) false
             closing in
  unprinted r.1
  = OStart "abc123" :: unprinted (closing (Bot_new cfg_guild)).1.
Proof.
  exact (proj1 (main_closes_unless_closed env_complete cfg_guild
           (Raises (Exc "Improper token has been passed.")) false
           (λ b, close b true sample_guilds (Returns tt) (Returns tt)) eq_refl)).
Defined.
End LifecycleFacts.

(* ===================================================================== *)
(** ** The session over a whole run *)
(* ===================================================================== *)

Module SessionFacts.
Import Py Config Client Views Samples Lifecycle LifecycleViews ReadyFacts
  HealthCheckFacts.

Lemma on_ready_exit_cases w :
  (_startup_dm_sent (bot w) = true ∧ on_ready_exit w = w)
  ∨ (_startup_dm_sent (bot w) = false
     ∧ on_ready_exit w =
         {| bot := set_owner_dm_task (Some (next_task w)) (bot w);
            ready_waiting := ready_waiting w;
            dm_tasks := dm_tasks w ++ [next_task w];
            next_task := S (next_task w);
            trace := trace w ++ [CreateTask (next_task w)] |}).
Proof. unfold on_ready_exit. destruct (_startup_dm_sent (bot w)); auto. Qed.

(** An uninterrupted [on_ready] is its last statement applied to a world
    whose session differs from the one before in the guild flag at most,
    and whose trace has grown by actions that send nothing to the owner. *)
Lemma on_ready_atomic w r :
  ready_waiting w = [] →
  ∃ b' acts,
    on_ready w r =
      on_ready_exit
        {| bot := b'; ready_waiting := []; dm_tasks := dm_tasks w;
           next_task := next_task w; trace := trace w ++ acts |}
    ∧ _startup_dm_sent b' = _startup_dm_sent (bot w)
    ∧ owner_sends acts = 0.
Proof.
  intros Hw. unfold on_ready. rewrite Hw. cbn [length].
  pose proof (on_ready_enter_no_send (bot w)) as Hn.
  destruct (on_ready_enter (bot w)) as [acts [g|]] eqn:He; cbn [fst] in Hn.
  - rewrite (step_ready_suspends _ _ _ He), Hw.
    erewrite step_sync_returns by done. cbn [bot ready_waiting dm_tasks next_task trace].
    destruct (on_ready_resume_frame (bot w) g r) as (_ & Hf & _ & Hs & _).
    eexists _, (acts ++ (on_ready_resume (bot w) g r).2).
    rewrite app_assoc. split_and!; [done..|].
    rewrite owner_sends_app. lia.
  - rewrite (step_ready_finishes _ _ He), Hw.
    rewrite step_sync_returns_nobody.
    + by eexists _, _.
    + by destruct (on_ready_exit_frame
        {| bot := bot w; ready_waiting := []; dm_tasks := dm_tasks w;
           next_task := next_task w; trace := trace w ++ acts |})
        as (_ & _ & _ & -> & _).
Qed.

Lemma ready_then_task_settled w ro : settled w → settled (ready_then_task w ro).
Proof.
  intros (Hw & Hd & Hinv). destruct ro as [r o]. unfold ready_then_task. cbn [fst snd].
  destruct (on_ready_atomic w r Hw) as (b' & acts & -> & Hf & Hn).
  rewrite Hd.
  match goal with |- context [on_ready_exit ?w0] =>
    destruct (on_ready_exit_cases w0) as [[Hs ->]|[Hs ->]] end;
    cbn [bot] in Hs; unfold step.
  - cbn [dm_tasks]. rewrite bool_decide_false by apply not_elem_of_nil.
    unfold settled. cbn [ready_waiting dm_tasks trace bot].
    rewrite owner_sends_app, Hn, Nat.add_0_r. split_and!; [done..|].
    destruct Hinv as [Hz|[Hone Hsent]]; [left; exact Hz|right; split; congruence].
  - cbn [dm_tasks app]. rewrite bool_decide_true by (apply elem_of_cons; by left).
    cbn [bot ready_waiting trace next_task].
    assert (owner_sends (trace w) = 0) as Hz.
    { destruct Hinv as [?|[_ ?]]; [done|congruence]. }
    destruct o as [name| |e|]; unfold settled;
      cbn [_send_startup_dm bot ready_waiting dm_tasks trace];
      rewrite !owner_sends_app, Hn, Hz;
      (split_and!; [done| |]);
      try (rewrite filter_cons_False, filter_nil by (intros ?; done));
      try done; try (by left); by right.
Qed.

(** X17.  When every startup task ends before the next ready event
    arrives, the owner gets the startup message at most once, however
    many ready events there are and whatever the syncs and the tasks
    answer: a task that fails is followed by a new attempt at the next
    ready event, a task that delivers by none. *)
Theorem startup_dm_once_without_overlap
    (cfg : BotConfig) (ros : list (sync_result * dm_outcome)) :
  owner_sends (trace (foldl ready_then_task (boot cfg) ros)) ≤ 1.
Proof.
  assert (settled (foldl ready_then_task (boot cfg) ros)) as (_ & _ & Hs).
  { assert (settled (boot cfg)) as Hb by (split_and!; [done..|by left]).
    revert Hb. generalize (boot cfg). induction ros as [|ro ros IH]; intros w Hw; [done|].
    simpl. by apply IH, ready_then_task_settled. }
  destruct Hs as [->|[-> _]]; lia.
Qed.

Lemma startup_dm_once_without_overlap_witness :
  owner_sends (trace (foldl ready_then_task (boot cfg_guild)
    [(Synced 5, DmRaised "Cannot send messages to this user");
     (SyncRaised "503 Service Unavailable", DmDelivered "owner");
     (Synced 5, DmDelivered "owner")])) ≤ 1.
Proof.
  exact (startup_dm_once_without_overlap cfg_guild
    [(Synced 5, DmRaised "Cannot send messages to this user");
     (SyncRaised "503 Service Unavailable", DmDelivered "owner");
     (Synced 5, DmDelivered "owner")]).
Defined.

Lemma count_ready_cons e es :
  count_ready (e :: es)
  = (match e with Ready => 1 | _ => 0 end) + count_ready es.
Proof. unfold count_ready. by destruct e. Qed.

Lemma length_filter_remove (t : nat) (l : list nat) :
  t ∈ l → S (length (filter (λ t', t' ≠ t) l)) ≤ length l.
Proof.
  induction l as [|a l IH]; [by intros ?%elem_of_nil|].
  intros Hin. destruct (decide (a = t)) as [->|Hne].
  - rewrite filter_cons_False by (intros ?; done). simpl.
    pose proof (length_filter (λ t', t' ≠ t) l). lia.
  - rewrite filter_cons_True by done. simpl.
    apply elem_of_cons in Hin as [?|Hin]; [congruence|]. specialize (IH Hin). lia.
Qed.

Lemma on_ready_exit_accounted n w acts :
  owner_sends acts = 0 →
  owner_sends (trace w) + length (dm_tasks w) ≤ next_task w →
  S (next_task w + length (ready_waiting w)) ≤ n →
  ∀ b',
  accounted n
    (on_ready_exit
       {| bot := b'; ready_waiting := ready_waiting w; dm_tasks := dm_tasks w;
          next_task := next_task w; trace := trace w ++ acts |}).
Proof.
  intros Hn H1 H2 b'. unfold accounted, on_ready_exit. cbn [bot next_task].
  destruct (negb _); cbn [trace dm_tasks next_task ready_waiting];
    rewrite ?owner_sends_app, ?length_app, Hn; unfold owner_sends in *; simpl; lia.
Qed.

Lemma step_accounted n w e :
  accounted n w →
  accounted (match e with Ready => S n | _ => n end) (step w e).
Proof.
  intros [H1 H2]. destruct e as [|i r|t o].
  - pose proof (on_ready_enter_no_send (bot w)) as Hn.
    destruct (on_ready_enter (bot w)) as [acts [g|]] eqn:He; cbn [fst] in Hn.
    + rewrite (step_ready_suspends _ _ _ He). unfold accounted.
      cbn [trace dm_tasks next_task ready_waiting].
      rewrite owner_sends_app, length_app, Hn. simpl. lia.
    + rewrite (step_ready_finishes _ _ He).
      apply (on_ready_exit_accounted (S n) w acts Hn H1); lia.
  - destruct (ready_waiting w !! i) as [g|] eqn:Hi.
    + rewrite (step_sync_returns _ _ _ _ Hi).
      destruct (on_ready_resume_frame (bot w) g r) as (_ & _ & _ & Hn & _).
      pose proof (lookup_lt_Some _ _ _ Hi) as Hlt.
      pose proof (length_delete _ _ (mk_is_Some _ _ Hi)) as Hdel.
      pose proof (on_ready_exit_accounted n
        {| bot := bot w; ready_waiting := delete i (ready_waiting w);
           dm_tasks := dm_tasks w; next_task := next_task w; trace := trace w |}
        _ Hn) as Hacc.
      cbn [trace dm_tasks next_task ready_waiting] in Hacc.
      apply Hacc; lia.
    + by rewrite (step_sync_returns_nobody _ _ _ Hi).
  - unfold step. case_bool_decide as Hin; [|done].
    pose proof (length_filter_remove t (dm_tasks w) Hin) as Hlen.
    unfold accounted.
    destruct o as [name| |err|];
      cbn [_send_startup_dm trace dm_tasks next_task ready_waiting];
      rewrite ?owner_sends_app; unfold owner_sends at 2; simpl; lia.
Qed.

(** X18.  However ready events, sync returns and task ends interleave,
    the owner never gets more startup messages than there were ready
    events. *)
Theorem owner_sends_bounded_by_ready_events (cfg : BotConfig) (es : list event) :
  owner_sends (trace (run (boot cfg) es)) ≤ count_ready es.
Proof.
  assert (∀ n w, accounted n w → accounted (n + count_ready es) (run w es)) as Hrun.
  { induction es as [|e es IH]; intros n w Hw.
    - by rewrite Nat.add_0_r.
    - simpl. rewrite count_ready_cons.
      pose proof (IH _ _ (step_accounted n w e Hw)) as Hacc.
      destruct e; [by replace (n + (1 + count_ready es)) with (S n + count_ready es) by lia
                  |by rewrite Nat.add_0_l..]. }
  destruct (Hrun 0 (boot cfg)) as [H1 H2]; [by split|]. lia.
Qed.

Lemma owner_sends_bounded_by_ready_events_witness :
  owner_sends (trace (run (boot cfg_no_guild)
    [Ready; Ready; DmTaskEnds 0 (DmDelivered "owner"); DmTaskEnds 1 (DmDelivered "owner")]))
  ≤ count_ready
      [Ready; Ready; DmTaskEnds 0 (DmDelivered "owner"); DmTaskEnds 1 (DmDelivered "owner")].
Proof.
  exact (owner_sends_bounded_by_ready_events cfg_no_guild
    [Ready; Ready; DmTaskEnds 0 (DmDelivered "owner"); DmTaskEnds 1 (DmDelivered "owner")]).
Defined.

Lemma on_ready_exit_latest w :
  _owner_dm_task (bot w) = latest_task w →
  _owner_dm_task (bot (on_ready_exit w)) = latest_task (on_ready_exit w).
Proof.
  destruct (on_ready_exit_cases w) as [[_ ->]|[_ ->]]; [done|]. by intros _.
Qed.

Lemma step_latest w e :
  _owner_dm_task (bot w) = latest_task w →
  _owner_dm_task (bot (step w e)) = latest_task (step w e).
Proof.
  intros Hw. destruct e as [|i r|t o].
  - destruct (on_ready_enter (bot w)) as [acts [g|]] eqn:He.
    + by rewrite (step_ready_suspends _ _ _ He).
    + rewrite (step_ready_finishes _ _ He). by apply on_ready_exit_latest.
  - destruct (ready_waiting w !! i) as [g|] eqn:Hi.
    + rewrite (step_sync_returns _ _ _ _ Hi). apply on_ready_exit_latest.
      unfold latest_task in *. cbn [bot next_task]. rewrite <- Hw.
      by destruct r as [n|err], g.
    + by rewrite (step_sync_returns_nobody _ _ _ Hi).
  - unfold step. case_bool_decide; [|done].
    by destruct o.
Qed.

Lemma disconnect_players_cancels_nothing guilds :
  List.filter is_cancel_dm (disconnect_players guilds).1 = [].
Proof.
  induction guilds as [|g rest IH]; [done|]. cbn [disconnect_players].
  assert (List.filter is_cancel_dm (disconnect_player g).1 = []) as Hg.
  { unfold disconnect_player.
    destruct (g_player g) as [[| |e]| |[x|[| |e]]]; done. }
  destruct (disconnect_player g) as [ops [|t]]; [|done].
  cbn [and_then fst] in *. by rewrite List.filter_app, Hg, IH.
Qed.

(** X19.  [close] cancels one startup task at most, the one created
    last: a task that an earlier ready event created and that is still
    pending is not cancelled by the shutdown. *)
Theorem close_cancels_only_the_latest_task
    (cfg : BotConfig) (es : list event) (has_health_task : bool)
    (guilds : list Guild) (pool_close super_close : answer unit) :
  let w := run (boot cfg) es in
  List.filter is_cancel_dm
    (close (bot w) has_health_task guilds pool_close super_close).1
  = match next_task w with
    | 0 => []
    | S t => [OCancelOwnerDmTask t]
    end.
Proof.
  intros w.
  assert (_owner_dm_task (bot w) = latest_task w) as Hl.
  { subst w. assert (_owner_dm_task (bot (boot cfg)) = latest_task (boot cfg)) as Hb by done.
    revert Hb. generalize (boot cfg). induction es as [|e es IH]; intros w Hw; [done|].
    simpl. by apply IH, step_latest. }
  unfold close. cbn [and_then fst].
  rewrite app_comm_cons, !List.filter_app, Hl. unfold latest_task.
  assert (List.filter is_cancel_dm
            (and_then (disconnect_players guilds)
               (and_then
                  (guarded OPoolClose pool_close
                     (λ _, [OLog INFO "🎵 Wavelink pool closed"])
                     (λ e, [OLog WARNING ("🎵 Error closing Wavelink pool: " +:+ e)]))
                  match super_close with
                  | Returns _ =>
                      ([OSuperClose; OLog INFO "✅ Bot shutdown completed"], Done)
                  | Raises t => ([OSuperClose], Propagates t)
                  end)).1 = []) as ->.
  { pose proof (disconnect_players_cancels_nothing guilds) as Hd.
    destruct (disconnect_players guilds) as [ops [|t]]; [|done].
    cbn [and_then fst] in *. rewrite List.filter_app, Hd.
    by destruct pool_close as [[]|[| |e]], super_close as [[]|[| |e']]. }
  destruct has_health_task, (next_task w); by rewrite ?app_nil_r.
Qed.

Lemma close_cancels_only_the_latest_task_witness :
  dm_tasks (run (boot cfg_no_guild) [Ready; Ready]) = [0; 1]
  ∧ List.filter is_cancel_dm
      (close (bot (run (boot cfg_no_guild) [Ready; Ready])) true sample_guilds
         (Returns tt) (Returns tt)).1
    = [OCancelOwnerDmTask 1].
Proof.
  split; [reflexivity|].
  exact (close_cancels_only_the_latest_task cfg_no_guild [Ready; Ready] true
           sample_guilds (Returns tt) (Returns tt)).
Defined.

(** X20.  The health check ends at the first turn that finds the client
    closed, and this turn does nothing: no sleep and no reconnection
    follow the close, whatever turns would have come. *)
Theorem health_check_ends_when_closed
    (b : Bot) (before after : list tick) (t : tick) :
  forallb survives before = true →
  is_closed t = true →
  _wavelink_health_check b (before ++ t :: after)
  = ((_wavelink_health_check b before).1, Stopped)
  ∧ sleeps (_wavelink_health_check b (before ++ t :: after)).1
    = replicate (length before) (Sleep 60).
Proof.
  intros Hb Ht.
  assert (health_iteration b t = ([], Stopped)) as Hi.
  { unfold health_iteration. by rewrite Ht. }
  rewrite health_check_app_stopped by (done || by rewrite Hi).
  rewrite Hi, app_nil_r. split; [done|]. cbn [fst].
  by destruct (health_check_survives b before Hb) as [_ ->].
Qed.

Lemma health_check_ends_when_closed_witness :
  _wavelink_health_check (Bot_new cfg_guild)
    ([tick_reconnect_fails; tick_ok]
     ++ {| is_closed := true; sleep_result := Returned; no_nodes := true;
           connect_result := Returned |} :: [tick_ok])
  = ((_wavelink_health_check (Bot_new cfg_guild) [tick_reconnect_fails; tick_ok]).1,
     Stopped).
Proof.
  exact (proj1 (health_check_ends_when_closed (Bot_new cfg_guild)
           [tick_reconnect_fails; tick_ok] [tick_ok]
           {| is_closed := true; sleep_result := Returned; no_nodes := true;
              connect_result := Returned |} eq_refl eq_refl)).
Defined.
End SessionFacts.

(* ===================================================================== *)
(** ** What the loader does not read *)
(* ===================================================================== *)

Module LoaderFrameFacts.
Import Py Config Views Samples EnvFile EnvFileViews LoaderViews EnvFileFacts.

Lemma getenv_any_same env env' keys default :
  (∀ k, k ∈ keys → env' !! k = env !! k) →
  getenv_any env' keys default = getenv_any env keys default.
Proof.
  induction keys as [|k keys IH]; intros Hk; [done|].
  simpl. rewrite (Hk k) by (apply elem_of_cons; by left).
  rewrite IH; [done|]. intros k' Hk'. apply Hk. apply elem_of_cons. by right.
Qed.

Lemma load_config_same env env' :
  (∀ k, k ∈ config_variables → env' !! k = env !! k) →
  load_config env' = load_config env.
Proof.
  intros Hk. unfold load_config.
  assert (∀ keys default, keys ⊆ config_variables →
            getenv_any env' keys default = getenv_any env keys default) as Hsame.
  { intros keys default Hsub. apply getenv_any_same. intros k Hin. by apply Hk, Hsub. }
  assert (∀ keys : list string,
            bool_decide (keys ⊆ config_variables) = true → keys ⊆ config_variables)
    as Hdec by (intros keys; apply bool_decide_eq_true_1).
  by rewrite !Hsame by (by apply Hdec; vm_compute).
Qed.

(** Two environments that differ in one variable at most still do so
    after the same file has been read, if no assignment was refused on
    the way in either. *)
Lemma merge_lines_agree k lines :
  ∀ env env' : environ,
    (∀ k', k' ≠ k → env' !! k' = env !! k') →
    aborts lines env = false → aborts lines env' = false →
    ∀ k', k' ≠ k → merge_lines lines env' !! k' = merge_lines lines env !! k'.
Proof.
  induction lines as [|line rest IH]; intros env env' Hagree Ha Ha'; [done|].
  simpl in *. destruct (parse_line line) as [[k1 v1]|]; [|by apply IH].
  destruct (setdefault k1 v1 env) as [e|env1] eqn:Hs; [done|].
  destruct (setdefault k1 v1 env') as [e'|env1'] eqn:Hs'; [done|].
  apply IH; [|done..]. intros k' Hk'.
  apply setdefault_inr in Hs as [[-> Hin]|[-> Hout]];
    apply setdefault_inr in Hs' as [[-> Hin']|[-> Hout']].
  - by apply Hagree.
  - destruct (decide (k1 = k)) as [->|Hne].
    + rewrite lookup_insert_ne by done. by apply Hagree.
    + rewrite (Hagree k1 Hne) in Hout'. destruct Hin as [v Hv]. congruence.
  - destruct (decide (k1 = k)) as [->|Hne].
    + rewrite lookup_insert_ne by done. by apply Hagree.
    + rewrite (Hagree k1 Hne) in Hin'. destruct Hin' as [v Hv]. congruence.
  - destruct (decide (k1 = k')) as [->|Hne'].
    + by rewrite !lookup_insert_eq.
    + rewrite !lookup_insert_ne by done. by apply Hagree.
Qed.

(** X21.  What the loader does once the environment is settled depends
    on its own eighteen variables only: environments that agree except on
    some other variable give the same output and the same result.  The
    [.env] fallback keeps this up as long as no assignment of the file is
    refused: then the variable may differ in the process environment, or
    the file may have one more line that assigns it, and the loader still
    gives the same.  (A refused assignment ends the reading, so that
    whether the other variable is already set can decide which lines
    after it are applied.) *)
Theorem load_config_reads_only_its_variables (k : string) (env env' : environ) :
  k ∉ config_variables →
  (∀ k', k' ≠ k → env' !! k' = env !! k') →
  load_config env' = load_config env
  ∧ (∀ lines,
       aborts lines env = false → aborts lines env' = false →
       load_config (dotenv_fallback (Some lines) env')
       = load_config (dotenv_fallback (Some lines) env))
  ∧ (∀ pre line rest v,
       parse_line line = Some (k, v) →
       aborts (pre ++ line :: rest) env = false →
       aborts (pre ++ rest) env = false →
       load_config (dotenv_fallback (Some (pre ++ line :: rest)) env)
       = load_config (dotenv_fallback (Some (pre ++ rest)) env)).
Proof.
  intros Hk Hagree.
  assert (∀ k', k' ∈ config_variables → k' ≠ k) as Hne by (intros k' ? ->; done).
  split_and!.
  - apply load_config_same. intros k' Hk'. by apply Hagree, Hne.
  - intros lines Ha Ha'. apply load_config_same. intros k' Hk'. simpl.
    by apply (merge_lines_agree k), Hne.
  - intros pre line rest v Hp Ha Ha'. apply load_config_same. intros k' Hk'. simpl.
    rewrite aborts_app in Ha, Ha'.
    apply orb_false_iff in Ha as [Hpre Ha]. apply orb_false_iff in Ha' as [_ Ha'].
    rewrite !merge_lines_app, Hpre. simpl in *. rewrite Hp in *.
    destruct (setdefault k v (merge_lines pre env)) as [e|env1] eqn:Hs; [done|].
    apply (merge_lines_agree k); [|done..|by apply Hne].
    intros k2 Hk2.
    apply setdefault_inr in Hs as [[-> _]|[-> _]]; [done|].
    by rewrite lookup_insert_ne by done.
Qed.

Lemma load_config_reads_only_its_variables_witness :
  load_config (<["PATH" := "/usr/bin"]> env_complete) = load_config env_complete
  ∧ load_config (dotenv_fallback
                   (Some ["DISCORD_TOKEN=abc"; "APP_ID=42"; "OWNER_ID=7"])
                   (<["PATH" := "/usr/bin"]> ∅))
    = load_config (dotenv_fallback
                     (Some ["DISCORD_TOKEN=abc"; "APP_ID=42"; "OWNER_ID=7"]) ∅)
  ∧ load_config (dotenv_fallback
                   (Some (["# bot settings"] ++ "PATH=/usr/bin" :: ["APP_ID=42"]))
                   env_token_only)
    = load_config (dotenv_fallback (Some (["# bot settings"] ++ ["APP_ID=42"]))
                     env_token_only).
Proof.
  assert ("PATH" ∉ config_variables) as Hk
    by (apply (bool_decide_eq_true_1 _); vm_compute; reflexivity).
  assert (∀ env : environ, ∀ k', k' ≠ "PATH" →
            <["PATH" := "/usr/bin"]> env !! k' = env !! k') as Hins
    by (intros env k' Hne; by apply lookup_insert_ne).
  split_and!.
  - exact (proj1 (load_config_reads_only_its_variables "PATH" env_complete
                    (<["PATH" := "/usr/bin"]> env_complete) Hk (Hins env_complete))).
  - exact (proj1 (proj2 (load_config_reads_only_its_variables "PATH" ∅
                           (<["PATH" := "/usr/bin"]> ∅) Hk (Hins ∅)))
             ["DISCORD_TOKEN=abc"; "APP_ID=42"; "OWNER_ID=7"] eq_refl eq_refl).
  - exact (proj2 (proj2 (load_config_reads_only_its_variables "PATH" env_token_only
                           env_token_only Hk (λ _ _, eq_refl)))
             ["# bot settings"] "PATH=/usr/bin" ["APP_ID=42"] "/usr/bin"
             eq_refl eq_refl eq_refl).
Defined.

End LoaderFrameFacts.
